(** * hookexecutor: the hook broker of xep

    A shallow embedding of [src/hookexecutor/executor.go]: the framing codec
    ([ReadMessage], [WriteMessage]), the per-connection reader and writer
    loops, and the event loop ([processEvents], [sendMessage],
    [SendMessageToBot]) together with the store of client registrations it
    owns.

    Conventions.
    - Go's [int] is the 64-bit two's-complement integer, carried in [Z] with
      the wrap-around of [counter++] written out ([int_wrap]).
    - A [*clientInfo] is a location in the store [heap]; the registry
      [clients] is a list of such locations, so aliasing is visible.
    - A buffered channel is its capacity, its queued values and its closed
      flag; the operations below follow the Go runtime (send on a closed
      channel panics, close of a closed channel panics).
    - The msgpack encoder and decoder ([github.com/ugorji/go/codec]) are not
      part of this repository: they are parameters of the development. *)

From Stdlib Require Import ZArith Lia.
From Stdlib Require Import Init.Byte Strings.Byte.
From stdpp Require Import base option list gmap strings.

Local Open Scope Z_scope.

(* ===================================================================== *)
(** ** Constants (executor.go, lines 19-27) *)
(* ===================================================================== *)

Definition second : Z := 1000000000.

Definition DefaultInboxBufferSize : nat := 4.
Definition DefaultOutboxBufferSize : nat := 4.
Definition DefaultClientBufferSize : nat := 8.
Definition DefaultHeartbeatTrigger : Z := 5 * second.
Definition DefaultHeartbeatTimeout : Z := 10 * second.
Definition DefaultMessageLengthCap : Z := 4 * 1024.

(* ===================================================================== *)
(** ** Data model (executor.go, lines 29-61) *)
(* ===================================================================== *)

(** [Data] is a Go map: [None] is the nil map, [Some ∅] the empty one. *)
Record IncomingEvent := mkEvent {
  Type_ : string;
  Data : option (gmap string string)
}.

(** [Message] embeds a [*IncomingEvent]; [None] is the nil pointer. *)
Record Message := mkMessage {
  msgEvent : option IncomingEvent;
  ID : Z
}.

(** Field selections through the embedded pointer. They are partial: Go
    panics on [msg.Type] when the embedded pointer is nil. *)
Definition msgType (m : Message) : option string := Type_ <$> msgEvent m.
Definition msgData (m : Message) : option (option (gmap string string)) :=
  Data <$> msgEvent m.

(** Indexing a Go map: a nil map and a missing key both give the zero
    value, here the empty string. *)
Definition map_index (d : option (gmap string string)) (k : string) : string :=
  match d with
  | None => EmptyString
  | Some m => default EmptyString (m !! k)
  end.

Definition int_wrap (z : Z) : Z := (z + 2 ^ 63) mod 2 ^ 64 - 2 ^ 63.

Inductive Error :=
| ErrRead                      (* the transport failed or timed out on read *)
| ErrWrite                     (* the transport failed or timed out on write *)
| ErrClosed                    (* use of a closed connection *)
| ErrTooLong                   (* errors.New("message is too long") *)
| ErrCodec (why : string)      (* an error of the msgpack codec *)
| ErrPanic (why : string).     (* a recovered panic, as [stopPanic] reports it *)

(* ===================================================================== *)
(** ** Channels *)
(* ===================================================================== *)

Record chan (A : Type) := mkChan {
  ch_cap : nat;
  ch_buf : list A;
  ch_closed : bool
}.
Arguments mkChan {A} _ _ _.
Arguments ch_cap {A} _.
Arguments ch_buf {A} _.
Arguments ch_closed {A} _.

Definition make_chan {A} (cap : nat) : chan A := mkChan cap [] false.

Definition chan_full {A} (c : chan A) : bool := (ch_cap c <=? length (ch_buf c))%nat.

Inductive send_result (A : Type) :=
| Sent (c : chan A)            (* the value was queued *)
| WouldBlock                   (* the send is not ready *)
| SendPanic.                   (* send on closed channel *)
Arguments Sent {A} _.
Arguments WouldBlock {A}.
Arguments SendPanic {A}.

(** One send case of a [select]: ready when there is room in the buffer.
    A closed channel makes the case ready and the send panics. *)
Definition try_send {A} (c : chan A) (x : A) : send_result A :=
  if ch_closed c then SendPanic
  else if chan_full c then WouldBlock
  else Sent (mkChan (ch_cap c) (ch_buf c ++ [x]) false).

Inductive recv_result (A : Type) :=
| Received (x : A) (c : chan A)   (* [x, ok := <-c] with ok *)
| RecvClosed                      (* drained and closed: zero value, !ok *)
| RecvBlock.                      (* nothing queued, still open *)
Arguments Received {A} _ _.
Arguments RecvClosed {A}.
Arguments RecvBlock {A}.

Definition try_recv {A} (c : chan A) : recv_result A :=
  match ch_buf c with
  | x :: rest => Received x (mkChan (ch_cap c) rest (ch_closed c))
  | [] => if ch_closed c then RecvClosed else RecvBlock
  end.

(** [close(c)]: [None] is the panic "close of closed channel". *)
Definition close_chan {A} (c : chan A) : option (chan A) :=
  if ch_closed c then None else Some (mkChan (ch_cap c) (ch_buf c) true).

(* ===================================================================== *)
(** ** Connections and byte order *)
(* ===================================================================== *)

Definition byte_to_Z (b : byte) : Z := Z.of_N (Byte.to_N b).

(** The conversion [byte(v)]: the low eight bits of [v]. *)
Definition byte_of_Z (v : Z) : byte :=
  default x00 (Byte.of_N (Z.to_N (Z.land v 255))).

(** [binary.BigEndian.Uint16] on a two-byte array. *)
Definition BigEndian_Uint16 (b : list byte) : Z :=
  match b with
  | b0 :: b1 :: _ => Z.lor (byte_to_Z b1) (Z.shiftl (byte_to_Z b0) 8)
  | _ => 0
  end.

(** [binary.BigEndian.PutUint16] into a two-byte array. *)
Definition BigEndian_PutUint16 (v : Z) : list byte :=
  [byte_of_Z (Z.shiftr v 8); byte_of_Z v].

(** The conversion [uint16(n)]. *)
Definition uint16 (n : Z) : Z := n mod 2 ^ 16.

(** One end of a TCP connection.
    - [rd]: the bytes that arrive on it before the read deadline, not yet
      consumed;
    - [wr]: the bytes written to it so far;
    - [wroom]: how many more bytes the transport accepts before a write
      fails ([None]: no such limit);
    - the two deadlines last set, and whether [Close] was called. *)
Record Conn := mkConn {
  rd : list byte;
  wr : list byte;
  wroom : option nat;
  rdeadline : option Z;
  wdeadline : option Z;
  cclosed : bool
}.

Definition SetReadDeadline (t : Z) (c : Conn) : Conn :=
  mkConn (rd c) (wr c) (wroom c) (Some t) (wdeadline c) (cclosed c).

Definition SetWriteDeadline (t : Z) (c : Conn) : Conn :=
  mkConn (rd c) (wr c) (wroom c) (rdeadline c) (Some t) (cclosed c).

Definition conn_Close (c : Conn) : Conn :=
  mkConn (rd c) (wr c) (wroom c) (rdeadline c) (wdeadline c) true.

Definition set_rd (r : list byte) (c : Conn) : Conn :=
  mkConn r (wr c) (wroom c) (rdeadline c) (wdeadline c) (cclosed c).

(** [conn.Read(p)] with [len(p) = n]: one read returns what is available,
    at most [n] bytes; with nothing available it fails. *)
Definition conn_Read (n : nat) (c : Conn) : Conn * (Error + list byte) :=
  if cclosed c then (c, inl ErrClosed)
  else match rd c with
       | [] => (c, inl ErrRead)
       | _ => (set_rd (drop n (rd c)) c, inr (take n (rd c)))
       end.

(** [io.CopyN(buf, conn, n)]: reads until [n] bytes are copied; fewer
    available bytes are consumed and reported as an error. With [n = 0] the
    connection is not touched. *)
Definition io_CopyN (n : nat) (c : Conn) : Conn * (Error + list byte) :=
  match n with
  | O => (c, inr [])
  | _ => if cclosed c then (c, inl ErrClosed)
         else if (length (rd c) <? n)%nat then (set_rd [] c, inl ErrRead)
         else (set_rd (drop n (rd c)) c, inr (take n (rd c)))
  end.

(** [conn.Write(p)]. *)
Definition conn_Write (p : list byte) (c : Conn) : Conn * option Error :=
  if cclosed c then (c, Some ErrClosed)
  else match wroom c with
       | None =>
           (mkConn (rd c) (wr c ++ p) None (rdeadline c) (wdeadline c) false, None)
       | Some k =>
           if (length p <=? k)%nat
           then (mkConn (rd c) (wr c ++ p) (Some (k - length p)%nat)
                        (rdeadline c) (wdeadline c) false, None)
           else (mkConn (rd c) (wr c ++ take k p) (Some O)
                        (rdeadline c) (wdeadline c) false, Some ErrWrite)
       end.

(** [io.Copy(conn, bytes.NewBuffer(buf))]: the buffer writes itself with one
    [conn.Write], and with no call at all when it is empty. *)
Definition io_Copy (buf : list byte) (c : Conn) : Conn * option Error :=
  match buf with
  | [] => (c, None)
  | _ => conn_Write buf c
  end.

(* ===================================================================== *)
(** ** The framing codec (executor.go, lines 209-264) *)
(* ===================================================================== *)

Section Framing.

(** The msgpack handle of the external codec library: [encode] is
    [codec.NewEncoderBytes(&buf, handle).Encode(msg)], [decode] is
    [codec.NewDecoder(buf, handle).Decode(result)] on a fresh
    [&Message{}]. *)
Variable encode : Message -> Error + list byte.
Variable decode : list byte -> Error + Message.

(** [ReadMessage(conn, timeout)] at time [now]. The deadline is computed
    from [DefaultHeartbeatTimeout]; the parameter [timeout] is not used,
    as in the source. *)
Definition ReadMessage (now : Z) (timeout : Z) (conn : Conn)
  : Conn * (Error + Message) :=
  let conn := SetReadDeadline (now + DefaultHeartbeatTimeout) conn in
  match conn_Read 2 conn with
  | (conn, inl err) => (conn, inl err)
  | (conn, inr got) =>
      let lengthBuf := take 2 (got ++ [x00; x00]) in
      let length := BigEndian_Uint16 lengthBuf in
      if length >? DefaultMessageLengthCap then (conn, inl ErrTooLong)
      else
        match io_CopyN (Z.to_nat length) conn with
        | (conn, inl err) => (conn, inl err)
        | (conn, inr buf) =>
            match decode buf with
            | inl err => (conn, inl err)
            | inr result => (conn, inr result)
            end
        end
  end.

(** [WriteMessage(conn, timeout, msg)] at time [now]. *)
Definition WriteMessage (now : Z) (timeout : Z) (conn : Conn) (msg : Message)
  : Conn * option Error :=
  match encode msg with
  | inl err => (conn, Some err)
  | inr buf =>
      let length := Z.of_nat (length buf) in
      if length >? DefaultMessageLengthCap then (conn, Some ErrTooLong)
      else
        let lengthBuf := BigEndian_PutUint16 (uint16 length) in
        let conn := SetWriteDeadline (now + timeout) conn in
        match conn_Write lengthBuf conn with
        | (conn, Some err) => (conn, Some err)
        | (conn, None) => io_Copy buf conn
        end
  end.

End Framing.

(* ===================================================================== *)
(** ** The broker state *)
(* ===================================================================== *)

(** Modelled from the spec: the stanza type of the chat library
    ([github.com/kpmy/xippo/entity], not part of this repository). The
    broker builds a group message with a destination and a body;
    [entity_MSG] is [entity.MSG], which makes an empty message of the given
    type. *)
Inductive MessageType := CHAT | GROUPCHAT.

Record EntityMessage := mkEntityMessage {
  mType : MessageType;
  To : string;
  Body : string
}.

Definition entity_MSG (t : MessageType) : EntityMessage :=
  mkEntityMessage t EmptyString EmptyString.

(** A [*clientInfo] is a location of the store. *)
Definition loc := nat.

Record clientInfo := mkClientInfo {
  inbox : chan Message;
  stop : chan unit
}.

Definition set_inbox (q : chan Message) (ci : clientInfo) : clientInfo :=
  mkClientInfo q (stop ci).

(** The fields of [Executor] that the event loop works on ([clients],
    [counter], [outbox]), the store of the [clientInfo] objects it
    allocated, and what it sent to its collaborators: the stanzas handed to
    [xmppStream.Write], the lines given to [logger], the registrations it
    replied with. [taken] records, for each registration, the messages its
    writer has already received from the inbox. *)
Record State := mkState {
  clients : list loc;
  counter : Z;
  outbox : chan Message;
  heap : gmap loc clientInfo;
  xmppStream : list EntityMessage;
  logger : list string;
  replies : list loc;
  taken : gmap loc (list Message)
}.

Definition set_clients (cs : list loc) (s : State) : State :=
  mkState cs (counter s) (outbox s) (heap s) (xmppStream s) (logger s)
          (replies s) (taken s).
Definition set_counter (n : Z) (s : State) : State :=
  mkState (clients s) n (outbox s) (heap s) (xmppStream s) (logger s)
          (replies s) (taken s).
Definition set_outbox (q : chan Message) (s : State) : State :=
  mkState (clients s) (counter s) q (heap s) (xmppStream s) (logger s)
          (replies s) (taken s).
Definition set_heap (h : gmap loc clientInfo) (s : State) : State :=
  mkState (clients s) (counter s) (outbox s) h (xmppStream s) (logger s)
          (replies s) (taken s).
Definition xmpp_Write (m : EntityMessage) (s : State) : State :=
  mkState (clients s) (counter s) (outbox s) (heap s) (xmppStream s ++ [m])
          (logger s) (replies s) (taken s).
Definition Printf (lines : list string) (s : State) : State :=
  mkState (clients s) (counter s) (outbox s) (heap s) (xmppStream s)
          (logger s ++ lines) (replies s) (taken s).
Definition reply (c : loc) (s : State) : State :=
  mkState (clients s) (counter s) (outbox s) (heap s) (xmppStream s) (logger s)
          (replies s ++ [c]) (taken s).
Definition set_taken (t : gmap loc (list Message)) (s : State) : State :=
  mkState (clients s) (counter s) (outbox s) (heap s) (xmppStream s) (logger s)
          (replies s) t.

(** [NewExecutor]: no client, counter 0, an empty outbox of capacity
    [DefaultOutboxBufferSize]. *)
Definition NewExecutor : State :=
  mkState [] 0 (make_chan DefaultOutboxBufferSize) ∅ [] [] [] ∅.

(** A step of the code either completes or panics; a panic keeps the
    effects made before it. *)
Inductive outcome (A : Type) :=
| Done (a : A)
| Panicked (a : A) (why : string).
Arguments Done {A} _.
Arguments Panicked {A} _ _.

Definition nil_deref : string := "invalid memory address or nil pointer dereference".
Definition send_on_closed : string := "send on closed channel".
Definition close_of_closed : string := "close of closed channel".

(* ===================================================================== *)
(** ** Broadcast (executor.go, lines 301-331) *)
(* ===================================================================== *)

(** The first loop of [sendMessage]: a non-blocking send to every
    registered inbox, in registry order; the indices of the registrations
    whose send took the [default] branch are collected in [deadClientIDs]. *)
Fixpoint sendMessage_offer (msg : Message) (idx : nat) (cs : list loc)
    (h : gmap loc clientInfo) (deadClientIDs : list nat)
  : outcome (gmap loc clientInfo * list nat) :=
  match cs with
  | [] => Done (h, deadClientIDs)
  | ch :: rest =>
      match h !! ch with
      | None => Panicked (h, deadClientIDs) nil_deref
      | Some ci =>
          match try_send (inbox ci) msg with
          | Sent q =>
              sendMessage_offer msg (S idx) rest (<[ch := set_inbox q ci]> h)
                                deadClientIDs
          | WouldBlock =>
              sendMessage_offer msg (S idx) rest h (deadClientIDs ++ [idx])
          | SendPanic => Panicked (h, deadClientIDs) send_on_closed
          end
      end
  end.

(** The second loop: walk the registry again with a cursor [currentID] into
    [deadClientIDs]; close and drop the registration at each recorded
    index, keep the others. *)
Fixpoint sendMessage_sweep (idx : nat) (cs : list loc) (deadClientIDs : list nat)
    (currentID : nat) (h : gmap loc clientInfo) (aliveClients : list loc)
  : outcome (gmap loc clientInfo * list loc) :=
  match cs with
  | [] => Done (h, aliveClients)
  | client :: rest =>
      if bool_decide (currentID < length deadClientIDs)%nat
         && bool_decide (deadClientIDs !! currentID = Some idx)
      then
        match h !! client with
        | None => Panicked (h, aliveClients) nil_deref
        | Some ci =>
            match close_chan (inbox ci) with
            | None => Panicked (h, aliveClients) close_of_closed
            | Some q =>
                sendMessage_sweep (S idx) rest deadClientIDs (S currentID)
                                  (<[client := set_inbox q ci]> h) aliveClients
            end
        end
      else
        sendMessage_sweep (S idx) rest deadClientIDs currentID h
                          (aliveClients ++ [client])
  end.

Definition sendMessage (msg : Message) (s : State) : outcome State :=
  match sendMessage_offer msg 0 (clients s) (heap s) [] with
  | Panicked (h, _) why => Panicked (set_heap h s) why
  | Done (h, deadClientIDs) =>
      if (length deadClientIDs =? 0)%nat then Done (set_heap h s)
      else
        match sendMessage_sweep 0 (clients s) deadClientIDs 0 h [] with
        | Panicked (h', _) why => Panicked (set_heap h' s) why
        | Done (h', aliveClients) => Done (set_clients aliveClients (set_heap h' s))
        end
  end.

(* ===================================================================== *)
(** ** Forwarding to the chat session (executor.go, lines 333-341) *)
(* ===================================================================== *)

Definition bot_room : string := "golang@conference.jabber.ru".

(** [SendMessageToBot(msg)]; [write_err] is what [xmppStream.Write]
    returns. The stanza recorded in [xmppStream] is the one passed to
    [entity.ProduceStatic]. *)
Definition SendMessageToBot (write_err : option string) (msg : option Message)
    (s : State) : outcome State :=
  let m := entity_MSG GROUPCHAT in
  let m := mkEntityMessage (mType m) bot_room (Body m) in
  match msg ≫= msgEvent with
  | None => Panicked s nil_deref
  | Some ev =>
      let m := mkEntityMessage (mType m) (To m) (map_index (Data ev) "body") in
      let s := xmpp_Write m s in
      match write_err with
      | Some err =>
          Done (Printf [("failed to write message to xmpp stream: " +:+ err)%string] s)
      | None => Done s
      end
  end.

(* ===================================================================== *)
(** ** The event loop (executor.go, lines 273-299) *)
(* ===================================================================== *)

(** Which case of the [select] in [processEvents] fires, with the value
    received where it comes from outside the broker: a chat event ([None]
    is the nil pointer read from the closed channel), a command, a
    registration request; for the outbox, the result of the stream write. *)
Inductive loop_event :=
| FromInbox (msg : option IncomingEvent)
| FromCmdInbox (cmd : string)
| FromClientRequests
| FromOutbox (write_err : option string).

(** The next free location of the store, for [&clientInfo{...}]. *)
Definition new_loc (h : gmap loc clientInfo) : loc := fresh (dom h).

Definition processEvents_iter (ev : loop_event) (s : State) : outcome State :=
  match ev with
  | FromInbox msg =>
      let message := mkMessage msg (counter s) in
      match sendMessage message s with
      | Panicked s' why => Panicked s' why
      | Done s' => Done (set_counter (int_wrap (counter s' + 1)) s')
      end
  | FromCmdInbox cmd =>
      Done (Printf [("ignoring cmd: '" +:+ cmd +:+ "'")%string] s)
  | FromClientRequests =>
      let info := mkClientInfo (make_chan DefaultClientBufferSize) (make_chan 0) in
      let p := new_loc (heap s) in
      let s := set_heap (<[p := info]> (heap s)) s in
      let s := set_clients (clients s ++ [p]) s in
      Done (reply p s)
  | FromOutbox write_err =>
      match try_recv (outbox s) with
      | RecvBlock => Done s
      | RecvClosed => SendMessageToBot write_err None s
      | Received msg q => SendMessageToBot write_err (Some msg) (set_outbox q s)
      end
  end.

(** One round of the loop under its [defer stopPanic]: a panic is logged
    and the loop is started again on the same [Executor]. *)
Definition processEvents (ev : loop_event) (s : State) : State :=
  match processEvents_iter ev s with
  | Done s' => s'
  | Panicked s' why =>
      Printf [("catched panic in processEvents: " +:+ why)%string] s'
  end.

(* ===================================================================== *)
(** ** Per-connection tasks (executor.go, lines 134-207) *)
(* ===================================================================== *)

(** What one reader/writer pair shares: the socket, the error channel of
    capacity 2 made by [ListenAndServe], and whether [stop] is closed. *)
Record ConnCtx := mkConnCtx {
  conn : Conn;
  errors : chan Error;
  stopped : bool
}.

Definition with_conn (c : Conn) (cx : ConnCtx) : ConnCtx :=
  mkConnCtx c (errors cx) (stopped cx).

(** The text [%v] prints for an error. *)
Definition Error_string (e : Error) : string :=
  match e with
  | ErrRead => "read failed"
  | ErrWrite => "write failed"
  | ErrClosed => "use of closed network connection"
  | ErrTooLong => "message is too long"
  | ErrCodec why => why
  | ErrPanic why => why
  end.

(** The blocking send [errors <- err]: [None] while the channel is full.
    The channel is never closed by the program. *)
Definition post_error (e : Error) (errs : chan Error) : option (chan Error) :=
  match try_send errs e with
  | Sent q => Some q
  | _ => None
  end.

(** Whether the loop of a task goes round again, has returned, or waits. *)
Inductive task_status := Continue | Return | Blocked.

Record reader_result := mkReaderResult {
  r_status : task_status;
  r_ctx : ConnCtx;
  r_outbox : chan Message;
  r_logged : list string
}.

Inductive writer_case := WInbox | WTick | WStop.

Record writer_result := mkWriterResult {
  w_status : task_status;
  w_ctx : ConnCtx;
  w_inbox : chan Message;
  w_got : option Message;
  w_logged : list string
}.

(** A panic in a task: the deferred [conn.Close()] runs, then [stopPanic]
    logs and starts the callback, which logs and posts the error (the
    callback waits while the error channel is full; the task itself has
    returned). *)
Definition task_panic (task short : string) (why : string) (c : Conn)
    (cx : ConnCtx) : ConnCtx * list string :=
  let errs := default (errors cx) (post_error (ErrPanic why) (errors cx)) in
  (mkConnCtx (conn_Close c) errs (stopped cx),
   [("catched panic in " +:+ task +:+ ": " +:+ why)%string;
    ("catched panic in " +:+ short +:+ ": " +:+ why)%string]).

Section Tasks.

Variable encode : Message -> Error + list byte.
Variable decode : list byte -> Error + Message.

(** One iteration of the loop of [clientReader] at time [now], on the
    shared [outbox]. When both cases of the [select] are ready the
    runtime picks one: [pick_stop] is that choice. *)
Definition clientReader_iter (now : Z) (pick_stop : bool) (cx : ConnCtx)
    (ob : chan Message) : reader_result :=
  match ReadMessage decode now DefaultHeartbeatTimeout (conn cx) with
  | (c, inl err) =>
      let logged := [("failed to read message: " +:+ Error_string err)%string] in
      match post_error err (errors cx) with
      | None => mkReaderResult Blocked (with_conn c cx) ob logged
      | Some q =>
          mkReaderResult Return (mkConnCtx (conn_Close c) q (stopped cx)) ob logged
      end
  | (c, inr msg) =>
      match msgType msg with
      | None =>
          let '(cx', logged) := task_panic "clientReader" "reader" nil_deref c cx in
          mkReaderResult Return cx' ob logged
      | Some ty =>
          if String.eqb ty "pong" then
            (* ignore pongs, they are for resetting timeouts *)
            mkReaderResult Continue (with_conn c cx) ob []
          else
            let can_send := ch_closed ob || negb (chan_full ob) in
            if stopped cx && (pick_stop || negb can_send) then
              mkReaderResult Return (with_conn (conn_Close c) cx) ob []
            else
              match try_send ob msg with
              | Sent q => mkReaderResult Continue (with_conn c cx) q []
              | WouldBlock => mkReaderResult Blocked (with_conn c cx) ob []
              | SendPanic =>
                  let '(cx', logged) :=
                    task_panic "clientReader" "reader" send_on_closed c cx in
                  mkReaderResult Return cx' ob logged
              end
      end
  end.

(** The heartbeat message built when the ticker fires:
    [&Message{&IncomingEvent{"ping", nil}, -1}]. *)
Definition ping : Message := mkMessage (Some (mkEvent "ping" None)) (-1).

(** One iteration of the loop of [clientWriter] at time [now], on its
    [inbox]; [pick] is the case of the [select] the runtime takes, [tick]
    whether the heartbeat ticker has a tick pending. A case that is not
    ready cannot be taken. *)
Definition clientWriter_iter (now : Z) (pick : writer_case) (tick : bool)
    (cx : ConnCtx) (ib : chan Message) : writer_result :=
  match pick with
  | WInbox =>
      match try_recv ib with
      | RecvBlock => mkWriterResult Blocked cx ib None []
      | RecvClosed =>
          if stopped cx then
            let '(cx', logged) :=
              task_panic "clientWriter" "writer" close_of_closed (conn cx) cx in
            mkWriterResult Return cx' ib None logged
          else
            mkWriterResult Return (mkConnCtx (conn_Close (conn cx)) (errors cx) true)
                           ib None []
      | Received msg q =>
          match WriteMessage encode now DefaultHeartbeatTimeout (conn cx) msg with
          | (c, Some err) =>
              let logged :=
                [("failed to write message: " +:+ Error_string err)%string] in
              match post_error err (errors cx) with
              | None => mkWriterResult Blocked (with_conn c cx) q (Some msg) logged
              | Some e =>
                  mkWriterResult Return (mkConnCtx (conn_Close c) e (stopped cx))
                                 q (Some msg) logged
              end
          | (c, None) => mkWriterResult Continue (with_conn c cx) q (Some msg) []
          end
      end
  | WTick =>
      if tick then
        match WriteMessage encode now DefaultHeartbeatTimeout (conn cx) ping with
        | (c, Some err) =>
            let logged :=
              [("failed to write ping message: " +:+ Error_string err)%string] in
            match post_error err (errors cx) with
            | None => mkWriterResult Blocked (with_conn c cx) ib None logged
            | Some e =>
                mkWriterResult Return (mkConnCtx (conn_Close c) e (stopped cx))
                               ib None logged
            end
        | (c, None) => mkWriterResult Continue (with_conn c cx) ib None []
        end
      else mkWriterResult Blocked cx ib None []
  | WStop =>
      if stopped cx then
        mkWriterResult Return (with_conn (conn_Close (conn cx)) cx) ib None []
      else mkWriterResult Blocked cx ib None []
  end.


(* =================================================================== *)
(** ** The broker as a transition system *)
(* =================================================================== *)

(** The tasks run interleaved. An action is one round of the event loop,
    one iteration of the reader of some connection, or one iteration of
    the writer that serves the registration [c]; the state of the
    connection comes with the action. *)
Inductive action :=
| Loop (ev : loop_event)
| ReaderIter (now : Z) (pick_stop : bool) (cx : ConnCtx)
| WriterIter (c : loc) (now : Z) (pick : writer_case) (tick : bool) (cx : ConnCtx).

Definition note_taken (c : loc) (got : option Message)
    (t : gmap loc (list Message)) : gmap loc (list Message) :=
  match got with
  | None => t
  | Some m => <[c := default [] (t !! c) ++ [m]]> t
  end.

Definition step (a : action) (s : State) : State :=
  match a with
  | Loop ev => processEvents ev s
  | ReaderIter now pick_stop cx =>
      let r := clientReader_iter now pick_stop cx (outbox s) in
      Printf (r_logged r) (set_outbox (r_outbox r) s)
  | WriterIter c now pick tick cx =>
      match heap s !! c with
      | None => s
      | Some ci =>
          let r := clientWriter_iter now pick tick cx (inbox ci) in
          Printf (w_logged r)
            (set_taken (note_taken c (w_got r) (taken s))
               (set_heap (<[c := set_inbox (w_inbox r) ci]> (heap s)) s))
      end
  end.

Definition run (acts : list action) (s : State) : State :=
  fold_left (fun s a => step a s) acts s.

End Tasks.

(* ===================================================================== *)
(** ** A stand-in codec for the examples *)
(* ===================================================================== *)

(** A small codec to run the definitions on concrete inputs. A message
    without event is one byte, its ID in two's complement; with an event
    there follow the length of the type tag, the tag, and the text under
    [Data["body"]] (no text: no [Data]). *)
Definition demo_encode (m : Message) : Error + list byte :=
  match msgEvent m with
  | None => inr [byte_of_Z (ID m)]
  | Some ev =>
      let tag := String.list_byte_of_string (Type_ ev) in
      inr (byte_of_Z (ID m) :: byte_of_Z (Z.of_nat (length tag)) :: tag
           ++ String.list_byte_of_string (map_index (Data ev) "body"))
  end.

Definition demo_decode (b : list byte) : Error + Message :=
  let id (i : byte) := let n := byte_to_Z i in if 128 <=? n then n - 256 else n in
  match b with
  | [] => inl (ErrCodec "EOF")
  | [i] => inr (mkMessage None (id i))
  | i :: n :: rest =>
      let k := Z.to_nat (byte_to_Z n) in
      let body := drop k rest in
      inr (mkMessage
             (Some (mkEvent (String.string_of_list_byte (take k rest))
                            (match body with
                             | [] => None
                             | _ => Some {[ "body" := String.string_of_list_byte body ]}
                             end)))
             (id i))
  end.

(* ===================================================================== *)
(** ** Notions used in the statements *)
(* ===================================================================== *)

(** The frame of an encoded body: its length on two bytes, big-endian, then
    the body. *)
Definition frame (buf : list byte) : list byte :=
  BigEndian_PutUint16 (uint16 (Z.of_nat (length buf))) ++ buf.

(** The length a frame declares in its first two bytes. *)
Definition declared_length (fr : list byte) : Z := BigEndian_Uint16 (take 2 fr).


(** A channel after a value was queued, and after [close]. *)
Definition push {A} (x : A) (q : chan A) : chan A :=
  mkChan (ch_cap q) (ch_buf q ++ [x]) false.

Definition shut {A} (q : chan A) : chan A :=
  mkChan (ch_cap q) (ch_buf q) true.

(** Whether the inbox of the registration at [c] is full. *)
Definition inbox_full (h : gmap loc clientInfo) (c : loc) : bool :=
  match h !! c with
  | Some ci => chan_full (inbox ci)
  | None => false
  end.


(** What the first loop of a broadcast does to a registered [clientInfo],
    and what the whole broadcast does: a full inbox is closed, any other
    gets the message. *)
Definition offered (msg : Message) (ci : clientInfo) : clientInfo :=
  if chan_full (inbox ci) then ci else set_inbox (push msg (inbox ci)) ci.

Definition broadcast_to (msg : Message) (ci : clientInfo) : clientInfo :=
  if chan_full (inbox ci) then set_inbox (shut (inbox ci)) ci
  else set_inbox (push msg (inbox ci)) ci.

(** The indices, counted from [idx], of the registrations that satisfy [P]. *)
Fixpoint dead_from (P : loc -> bool) (idx : nat) (cs : list loc) : list nat :=
  match cs with
  | [] => []
  | c :: rest =>
      if P c then idx :: dead_from P (S idx) rest else dead_from P (S idx) rest
  end.

Definition registered_open (h : gmap loc clientInfo) (cs : list loc) : Prop :=
  forall c, c ∈ cs -> exists ci, h !! c = Some ci /\ ch_closed (inbox ci) = false.

(** The invariant of the broker: the registry has no duplicate, every
    registered inbox is allocated, open and of the capacity the event loop
    gave it; a writer has taken nothing from an inbox that does not exist;
    the outbox is open and holds only messages that carry an event. *)
Definition wf (s : State) : Prop :=
  NoDup (clients s) /\
  (forall c, c ∈ clients s ->
     exists ci, heap s !! c = Some ci /\ ch_closed (inbox ci) = false /\
                ch_cap (inbox ci) = DefaultClientBufferSize) /\
  (forall c, heap s !! c = None -> taken s !! c = None) /\
  ch_closed (outbox s) = false /\
  Forall (fun m => is_Some (msgEvent m)) (ch_buf (outbox s)).

(** Everything that was ever queued for the registration [c]: what its
    writer has taken, then what is still in the inbox. *)
Definition received (s : State) (c : loc) : list Message :=
  default [] (taken s !! c) ++ from_option (fun ci => ch_buf (inbox ci)) [] (heap s !! c).

(** The chat events among a list of actions, in order. *)
Definition chat_event (a : action) : option (option IncomingEvent) :=
  match a with
  | Loop (FromInbox msg) => Some msg
  | _ => None
  end.

Fixpoint chat_events (acts : list action) : list (option IncomingEvent) :=
  match acts with
  | [] => []
  | a :: rest =>
      match chat_event a with
      | Some e => e :: chat_events rest
      | None => chat_events rest
      end
  end.

(** The messages the event loop makes of a run of chat events when its
    counter stands at [k]. *)
Definition numbered (k : nat) (evs : list (option IncomingEvent)) : list Message :=
  imap (fun i e => mkMessage e (Z.of_nat (k + i))) evs.

(** What any step other than a chat event leaves in place. *)
Record preserved (s s' : State) : Prop := {
  pres_counter : counter s' = counter s;
  pres_received : forall c, received s' c = received s c;
  pres_clients : clients s `prefix_of` clients s';
  pres_new : forall c, c ∈ clients s' -> c ∉ clients s -> heap s !! c = None;
  pres_heap : forall c ci, heap s !! c = Some ci ->
    exists ci', heap s' !! c = Some ci' /\
                ch_closed (inbox ci') = ch_closed (inbox ci) /\
                ch_cap (inbox ci') = ch_cap (inbox ci)
}.

(* ===================================================================== *)
(** ** Concrete inputs for the examples *)
(* ===================================================================== *)

(** A fresh connection on which [incoming] arrives, and the context
    [ListenAndServe] makes for it. *)
Definition demo_conn (incoming : list byte) : Conn :=
  mkConn incoming [] None None None false.

Definition demo_ctx (incoming : list byte) : ConnCtx :=
  mkConnCtx (demo_conn incoming) (make_chan 2) false.

(** The chat event and the client message of the spec's scenarios. *)
Definition hi_event : IncomingEvent :=
  mkEvent "message" (Some {[ "body"%string := "hi"%string ]}).

Definition reply_event : IncomingEvent :=
  mkEvent "reply" (Some {[ "body"%string := "yo"%string ]}).

Definition reply_msg : Message := mkMessage (Some reply_event) 7.

Definition reply_frame : list byte :=
  match demo_encode reply_msg with
  | inr buf => frame buf
  | inl _ => []
  end.

(** A message whose encoding is longer than [DefaultMessageLengthCap]. *)
Definition long_msg : Message :=
  mkMessage (Some (mkEvent (String.string_of_list_byte (repeat "a"%byte 5000)) None)) 1.

Definition long_buf : list byte :=
  match demo_encode long_msg with
  | inr buf => buf
  | inl _ => []
  end.

(** Two registrations; then chat events with a writer iteration and a
    command in between; and eight chat events that nobody reads. *)
Definition two_clients : list action :=
  [Loop FromClientRequests; Loop FromClientRequests].

Definition three_events : list action :=
  [Loop (FromInbox (Some hi_event));
   WriterIter 0%nat 0 WInbox false (demo_ctx []);
   Loop (FromCmdInbox "status");
   Loop (FromInbox (Some hi_event));
   Loop (FromInbox (Some hi_event))].

Definition eight_unread : list action :=
  two_clients ++ repeat (Loop (FromInbox (Some hi_event))) 8.

(* ===================================================================== *)
(** ** Further notions: the message sequence, more invariants *)
(* ===================================================================== *)

(** The message the event loop makes of the [i]-th chat event of a run. *)
Definition all_messages (acts : list action) : list Message :=
  imap (fun i e => mkMessage e (int_wrap (Z.of_nat i))) (chat_events acts).

(** Further invariants of the broker: registrations are handed out once,
    the registry lists, in the order of registration, exactly the
    allocated registrations whose inbox is open, and no queue holds more
    than its capacity. *)
Definition wf_ext (s : State) : Prop :=
  NoDup (replies s) /\
  clients s `sublist_of` replies s /\
  (forall c, c ∈ replies s <-> is_Some (heap s !! c)) /\
  (forall c ci, heap s !! c = Some ci ->
     ch_cap (inbox ci) = DefaultClientBufferSize /\
     (length (ch_buf (inbox ci)) <= DefaultClientBufferSize)%nat /\
     (c ∈ clients s <-> ch_closed (inbox ci) = false)) /\
  ch_cap (outbox s) = DefaultOutboxBufferSize /\
  (length (ch_buf (outbox s)) <= DefaultOutboxBufferSize)%nat.

(** The connection after a whole frame for [buf] went out at time [now]
    under [timeout]. *)
Definition after_frame (now timeout : Z) (c : Conn) (buf : list byte) : Conn :=
  mkConn (rd c) (wr c ++ frame buf)
         ((fun k => (k - (2 + length buf))%nat) <$> wroom c)
         (rdeadline c) (Some (now + timeout)) false.


(* ===================================================================== *)
(** ** The loops of the tasks (executor.go, lines 146-171 and 182-200) *)
(* ===================================================================== *)

Record writer_run := mkWriterRun {
  wl_status : task_status;
  wl_ctx : ConnCtx;
  wl_inbox : chan Message;
  wl_taken : list Message;
  wl_logged : list string
}.


Section Loops.
Variable encode : Message -> Error + list byte.
Variable decode : list byte -> Error + Message.

(** The loop of [clientWriter]: iterations follow one another while they
    end in [Continue]; the loop stops where the task returns or waits.
    [sched] gives, for each iteration, the time, the case the runtime
    takes and whether a tick is pending. *)
Fixpoint clientWriter (sched : list (Z * writer_case * bool)) (cx : ConnCtx)
    (ib : chan Message) : writer_run :=
  match sched with
  | [] => mkWriterRun Continue cx ib [] []
  | (now, pick, tick) :: rest =>
      let r := clientWriter_iter encode now pick tick cx ib in
      match w_status r with
      | Continue =>
          let k := clientWriter rest (w_ctx r) (w_inbox r) in
          mkWriterRun (wl_status k) (wl_ctx k) (wl_inbox k)
                      (option_list (w_got r) ++ wl_taken k)
                      (w_logged r ++ wl_logged k)
      | st => mkWriterRun st (w_ctx r) (w_inbox r) (option_list (w_got r)) (w_logged r)
      end
  end.


End Loops.


(* ===================================================================== *)
(** ** The statistics counter (stat.go) *)
(* ===================================================================== *)

Module Stat.

Record CStatDoc := mkDoc {
  Total : Z;
  Data : option (gmap string Z)
}.

(** How a call of [IncStat] ends: it returns, with the lines it logged, or
    it panics. *)
Inductive ending (DB : Type) :=
| Finished (db : DB) (logged : list string)
| Panics (db : DB) (why : string).
Arguments Finished {DB} _ _.
Arguments Panics {DB} _ _.

Definition nil_map_entry : string := "assignment to entry in nil map".

(** The sum of the counters of a document. *)
Definition sum_counts (d : gmap string Z) : Z :=
  map_fold (fun _ v acc => v + acc) 0 d.

Section Db.
(** The CouchDB client ([github.com/fjl/go-couchdb]) is not part of the
    repository; its calls on the document [docId] are parameters: the
    state [DB] of the store, [db.Get] decoding into a fresh [CStatDoc],
    [db.Put] with a revision, [db.Rev], and the test [couchdb.NotFound]. *)
Variable DB : Type.
Variable DbError : Type.
Variable db_Get : DB -> DbError + CStatDoc.
Variable db_Put : CStatDoc -> string -> DB -> DB * (DbError + string).
Variable db_Rev : DB -> DbError + string.
Variable NotFound : DbError -> bool.
Variable show : DbError -> string.

(** [GetStat()]: the document and the error it returns. The recursion of
    the source is bounded by [fuel]; [None] is a recursion that has not
    ended within it. *)
Fixpoint GetStat (fuel : nat) (db : DB) : option (DB * CStatDoc * option DbError) :=
  match fuel with
  | O => None
  | S fuel' =>
      let ret := mkDoc 0 None in
      match db_Get db with
      | inr doc =>
          match Data doc with
          | None => Some (db, mkDoc (Total doc) (Some ∅), None)
          | Some _ => Some (db, doc, None)
          end
      | inl err =>
          if NotFound err then
            match db_Put ret "" db with
            | (db', inr _) => GetStat fuel' db'
            | (db', inl err') => Some (db', ret, Some err')
            end
          else Some (db, ret, Some err)
      end
  end.

(** [SetStat(old)]. *)
Definition SetStat (old : CStatDoc) (db : DB) : DB * list string :=
  match db_Rev db with
  | inr rev =>
      match db_Put old rev db with
      | (db', inl err) => (db', [show err])
      | (db', inr _) => (db', [])
      end
  | inl _ => (db, [])
  end.

(** The update [IncStat] makes to the document it got; [None] is the
    panic of an assignment into a nil map. *)
Definition bump (user : string) (s : CStatDoc) : option CStatDoc :=
  match Data s with
  | None => None
  | Some d =>
      let d' := match d !! user with
                | Some n => <[user := int_wrap (n + 1)]> d
                | None => <[user := 1]> d
                end in
      Some (mkDoc (int_wrap (Total s + 1)) (Some d'))
  end.

(** [IncStat(user)]. *)
Definition IncStat (user : string) (fuel : nat) (db : DB) : option (ending DB) :=
  match GetStat fuel db with
  | None => None
  | Some (db', s, None) =>
      match bump user s with
      | None => Some (Panics db' nil_map_entry)
      | Some s' => let '(db'', logged) := SetStat s' db' in Some (Finished db'' logged)
      end
  | Some (db', _, Some _) => Some (Finished db' [])
  end.

End Db.

End Stat.

(* ===================================================================== *)
(** ** Concrete inputs for the further examples *)
(* ===================================================================== *)

Definition hi_msg : Message := mkMessage (Some hi_event) 0.

(** The encoding of a message by the stand-in codec. *)
Definition demo_buf (m : Message) : list byte :=
  match demo_encode m with
  | inr buf => buf
  | inl _ => []
  end.

(** A store that holds at most the one document, never fails otherwise,
    and reports a missing document as the error [true]. *)
Definition demo_Get (db : option Stat.CStatDoc) : bool + Stat.CStatDoc :=
  match db with
  | Some doc => inr doc
  | None => inl true
  end.

Definition demo_Put (doc : Stat.CStatDoc) (rev : string)
    (db : option Stat.CStatDoc) : option Stat.CStatDoc * (bool + string) :=
  (Some doc, inr "1"%string).

Definition demo_Rev (db : option Stat.CStatDoc) : bool + string :=
  match db with
  | Some _ => inr "1"%string
  | None => inl true
  end.

(* ===================================================================== *)
(** ** Byte order and framing *)
(* ===================================================================== *)

Lemma land_255_range v : 0 <= Z.land v 255 < 256.
Proof.
  change 255 with (Z.ones 8). rewrite Z.land_ones by lia.
  apply Z.mod_pos_bound. lia.
Qed.

Lemma byte_to_of_Z v : byte_to_Z (byte_of_Z v) = Z.land v 255.
Proof.
  unfold byte_to_Z, byte_of_Z.
  pose proof (land_255_range v) as Hr.
  destruct (Byte.of_N (Z.to_N (Z.land v 255))) as [b|] eqn:E.
  - simpl. apply Byte.to_of_N in E. rewrite E. lia.
  - apply Byte.of_N_None_iff in E. lia.
Qed.

Lemma byte_to_Z_range b : 0 <= byte_to_Z b < 256.
Proof.
  unfold byte_to_Z. pose proof (Byte.to_N_bounded b). lia.
Qed.

Lemma Uint16_PutUint16 v :
  0 <= v < 2 ^ 16 -> BigEndian_Uint16 (BigEndian_PutUint16 v) = v.
Proof.
  intros Hv. unfold BigEndian_Uint16, BigEndian_PutUint16.
  rewrite !byte_to_of_Z.
  change 255 with (Z.ones 8). rewrite !Z.land_ones by lia.
  apply Z.bits_inj'. intros n Hn.
  rewrite Z.lor_spec.
  destruct (Z.ltb_spec n 8) as [Hlt|Hge].
  - rewrite Z.mod_pow2_bits_low by lia.
    rewrite Z.shiftl_spec_low by lia. apply orb_false_r.
  - rewrite Z.mod_pow2_bits_high by lia.
    rewrite Z.shiftl_spec by lia. simpl.
    destruct (Z.ltb_spec n 16) as [Hlt|Hge'].
    + rewrite Z.mod_pow2_bits_low by lia.
      rewrite Z.shiftr_spec by lia. f_equal. lia.
    + rewrite Z.mod_pow2_bits_high by lia.
      symmetry. apply Z.bits_above_log2; [lia|].
      destruct (Z.eq_dec v 0) as [->|Hnz]; [simpl; lia|].
      apply Z.log2_lt_pow2; [lia|].
      apply Z.lt_le_trans with (2 ^ 16); [lia|].
      apply Z.pow_le_mono_r; lia.
Qed.

Lemma uint16_small n : 0 <= n <= DefaultMessageLengthCap -> uint16 n = n.
Proof.
  unfold DefaultMessageLengthCap, uint16. intros H.
  apply Z.mod_small. lia.
Qed.

Lemma declared_length_frame buf :
  Z.of_nat (length buf) <= DefaultMessageLengthCap ->
  declared_length (frame buf) = Z.of_nat (length buf).
Proof.
  intros H. unfold declared_length, frame.
  rewrite uint16_small by lia.
  change (take 2 (BigEndian_PutUint16 ?v ++ buf)) with (BigEndian_PutUint16 v).
  apply Uint16_PutUint16. unfold DefaultMessageLengthCap in H. lia.
Qed.

Lemma conn_Write_wr p c c' r :
  conn_Write p c = (c', r) ->
  exists out, wr c' = wr c ++ out /\ out `prefix_of` p /\
              (r = None -> out = p) /\ rd c' = rd c /\ cclosed c' = cclosed c.
Proof.
  unfold conn_Write. intros H.
  destruct (cclosed c) eqn:Hc.
  { inversion H; subst. exists []. rewrite app_nil_r.
    split_and!; try done. apply prefix_nil. }
  destruct (wroom c) as [k|].
  - destruct (length p <=? k)%nat eqn:Hk; inversion H; subst; simpl.
    + exists p. split_and!; done.
    + exists (take k p). split_and!; try done. apply prefix_take.
  - inversion H; subst; simpl. exists p. split_and!; done.
Qed.

Section FramingFacts.
Variable encode : Message -> Error + list byte.
Variable decode : list byte -> Error + Message.

Lemma WriteMessage_emits now timeout c msg c' r :
  WriteMessage encode now timeout c msg = (c', r) ->
  exists out, wr c' = wr c ++ out /\ rd c' = rd c /\
    ((out = [] /\ r <> None) \/
     exists buf, encode msg = inr buf /\
                 Z.of_nat (length buf) <= DefaultMessageLengthCap /\
                 out `prefix_of` frame buf /\ (r = None -> out = frame buf)).
Proof.
  unfold WriteMessage. intros H.
  destruct (encode msg) as [e|buf] eqn:He.
  { inversion H; subst. exists []. rewrite app_nil_r. auto. }
  destruct (Z.of_nat (length buf) >? DefaultMessageLengthCap) eqn:Hlen.
  { inversion H; subst. exists []. rewrite app_nil_r. auto. }
  assert (Hle : Z.of_nat (length buf) <= DefaultMessageLengthCap) by lia.
  destruct (conn_Write _ _) as [c1 [e1|]] eqn:Hw1.
  - inversion H; subst. apply conn_Write_wr in Hw1 as (out & Hout & Hpre & _ & Hrd & _).
    exists out. simpl in *. split_and!; [done|done|]. right. exists buf.
    split_and!; try done.
    unfold frame. by apply prefix_app_r.
  - apply conn_Write_wr in Hw1 as (out & Hout & _ & Hall & Hrd & _).
    specialize (Hall eq_refl). subst out. simpl in *.
    unfold io_Copy in H. destruct buf as [|b buf'] eqn:Hbuf.
    + inversion H; subst. eexists. split_and!; [done|done|]. right. exists [].
      split_and!; try done; unfold frame; by rewrite app_nil_r.
    + rewrite <- Hbuf in *.
      apply conn_Write_wr in H as (out & Hout2 & Hpre & Hall & Hrd2 & _).
      exists (BigEndian_PutUint16 (uint16 (Z.of_nat (length buf))) ++ out).
      split_and!.
      * rewrite Hout2, Hout. by rewrite <- app_assoc.
      * congruence.
      * right. exists buf. split_and!; try done.
        -- unfold frame. by apply prefix_app.
        -- intros Hr. by rewrite (Hall Hr).
Qed.



(** C9. When the encoded body of [msg] is longer than 4096 bytes,
    [WriteMessage] returns "message is too long" and the connection is
    unchanged. So whatever [WriteMessage] writes is either nothing or a
    prefix of a frame whose declared length is the length of its body and
    at most 4096. *)
Theorem WriteMessage_rejects_oversized now timeout c msg :
  (forall buf, encode msg = inr buf ->
               Z.of_nat (length buf) > DefaultMessageLengthCap ->
               WriteMessage encode now timeout c msg = (c, Some ErrTooLong)) /\
  (forall c' r, WriteMessage encode now timeout c msg = (c', r) ->
     exists out, wr c' = wr c ++ out /\
       (out = [] \/
        exists buf, out `prefix_of` frame buf /\
                    declared_length (frame buf) = Z.of_nat (length buf) /\
                    declared_length (frame buf) <= DefaultMessageLengthCap)).
Proof.
  split.
  - intros buf He Hlen. unfold WriteMessage. rewrite He.
    destruct (Z.of_nat (length buf) >? DefaultMessageLengthCap) eqn:E; [done|lia].
  - intros c' r H.
    apply WriteMessage_emits in H as (out & Hwr & _ & [[-> _]|(buf & _ & Hle & Hpre & _)]).
    + exists []. auto.
    + exists out. split; [done|]. right. exists buf.
      rewrite declared_length_frame by done. auto.
Qed.


End FramingFacts.

(* ===================================================================== *)
(** ** The broadcast loops *)
(* ===================================================================== *)

Lemma filter_all {A} (P : A -> Prop) `{forall x, Decision (P x)} (l : list A) :
  (forall x, x ∈ l -> P x) -> filter P l = l.
Proof.
  induction l as [|x l IH]; intros Hall; [done|].
  rewrite filter_cons_True by (apply Hall, list_elem_of_here).
  f_equal. apply IH. intros y Hy. by apply Hall, list_elem_of_further.
Qed.


Lemma dead_from_ext P Q cs : forall idx,
  (forall c, c ∈ cs -> P c = Q c) -> dead_from P idx cs = dead_from Q idx cs.
Proof.
  induction cs as [|c rest IH]; intros idx H; simpl; [done|].
  rewrite (H c) by apply list_elem_of_here.
  rewrite (IH (S idx)); [done|].
  intros c' Hc'. apply H. by apply list_elem_of_further.
Qed.

Lemma dead_from_ge P cs : forall idx i, i ∈ dead_from P idx cs -> (idx <= i)%nat.
Proof.
  induction cs as [|c rest IH]; intros idx i Hi; simpl in Hi.
  - by apply not_elem_of_nil in Hi.
  - destruct (P c).
    + apply elem_of_cons in Hi as [->|Hi]; [lia|]. apply IH in Hi. lia.
    + apply IH in Hi. lia.
Qed.

Lemma dead_from_nil P cs idx :
  dead_from P idx cs = [] <-> (forall c, c ∈ cs -> P c = false).
Proof.
  revert idx. induction cs as [|c rest IH]; intros idx; simpl.
  - split; [|done]. intros _ c Hc. by apply not_elem_of_nil in Hc.
  - destruct (P c) eqn:E.
    + split; [done|]. intros H. specialize (H c (list_elem_of_here _ _)). congruence.
    + rewrite IH. split.
      * intros H c' Hc'. apply elem_of_cons in Hc' as [->|Hc']; auto.
      * intros H c' Hc'. apply H. by apply list_elem_of_further.
Qed.

Lemma sendMessage_offer_ok msg cs : forall idx h dead,
  NoDup cs -> registered_open h cs ->
  exists h',
    sendMessage_offer msg idx cs h dead
      = Done (h', dead ++ dead_from (inbox_full h) idx cs) /\
    (forall c, h' !! c = if decide (c ∈ cs) then offered msg <$> h !! c else h !! c).
Proof.
  induction cs as [|c rest IH]; intros idx h dead Hnd Hopen; simpl.
  - exists h. rewrite app_nil_r. split; [done|].
    intros c. destruct (decide (c ∈ [])) as [Hc|]; [|done]. by apply not_elem_of_nil in Hc.
  - apply NoDup_cons in Hnd as [Hnotin Hnd].
    destruct (Hopen c (list_elem_of_here _ _)) as (ci & Hci & Hcl).
    rewrite Hci. unfold try_send. rewrite Hcl.
    assert (Hfull : inbox_full h c = chan_full (inbox ci)).
    { unfold inbox_full. by rewrite Hci. }
    rewrite Hfull.
    destruct (chan_full (inbox ci)) eqn:Hf.
    + destruct (IH (S idx) h (dead ++ [idx]) Hnd) as (h' & Heq & Hh').
      { intros c' Hc'. apply Hopen. by apply list_elem_of_further. }
      exists h'. split.
      * rewrite Heq. by rewrite <- app_assoc.
      * intros c'. rewrite Hh'.
        destruct (decide (c' = c)) as [->|Hne].
        -- rewrite decide_False by done. rewrite decide_True by apply list_elem_of_here.
           rewrite Hci. simpl. unfold offered. by rewrite Hf.
        -- destruct (decide (c' ∈ rest)) as [Hin|Hnin].
           ++ rewrite decide_True; [done|]. by apply list_elem_of_further.
           ++ rewrite decide_False; [done|].
              intros [?|?]%elem_of_cons; done.
    + set (h1 := <[c := set_inbox _ ci]> h).
      destruct (IH (S idx) h1 dead Hnd) as (h' & Heq & Hh').
      { intros c' Hc'. unfold h1. rewrite lookup_insert_ne by (intros ->; done).
        apply Hopen. by apply list_elem_of_further. }
      exists h'. split.
      * rewrite Heq. f_equal. f_equal. f_equal. apply dead_from_ext.
        intros c' Hc'. unfold inbox_full, h1.
        rewrite lookup_insert_ne by (intros ->; done). done.
      * intros c'. rewrite Hh'.
        destruct (decide (c' = c)) as [->|Hne].
        -- rewrite decide_False by done. rewrite decide_True by apply list_elem_of_here.
           unfold h1. rewrite lookup_insert_eq, Hci. simpl. unfold offered. by rewrite Hf.
        -- unfold h1. rewrite lookup_insert_ne by done.
           destruct (decide (c' ∈ rest)) as [Hin|Hnin].
           ++ rewrite decide_True; [done|]. by apply list_elem_of_further.
           ++ rewrite decide_False; [done|].
              intros [?|?]%elem_of_cons; done.
Qed.

Lemma drop_eq_cons {A} (l : list A) k x t :
  drop k l = x :: t -> l !! k = Some x /\ (k < length l)%nat /\ drop (S k) l = t.
Proof.
  intros H.
  assert (Hk : l !! k = Some x).
  { pose proof (lookup_drop l k 0) as Hl. rewrite H in Hl. simpl in Hl.
    by rewrite Nat.add_0_r in Hl. }
  split_and!; [done|by eapply lookup_lt_Some|].
  rewrite (drop_S _ _ _ Hk) in H. congruence.
Qed.

Lemma sendMessage_sweep_ok (P : loc -> bool) cs : forall idx D k h alive,
  NoDup cs ->
  (forall c, c ∈ cs -> P c = true ->
     exists ci, h !! c = Some ci /\ ch_closed (inbox ci) = false) ->
  drop k D = dead_from P idx cs ->
  exists h',
    sendMessage_sweep idx cs D k h alive
      = Done (h', alive ++ filter (fun c => P c = false) cs) /\
    (forall c, h' !! c =
       if decide (c ∈ cs /\ P c = true)
       then (fun ci => set_inbox (shut (inbox ci)) ci) <$> h !! c
       else h !! c).
Proof.
  induction cs as [|c rest IH]; intros idx D k h alive Hnd Hopen Hdrop;
    cbn [sendMessage_sweep].
  - exists h. rewrite filter_nil, app_nil_r. split; [done|].
    intros c. rewrite decide_False; [done|]. intros [Hc _]. by apply not_elem_of_nil in Hc.
  - apply NoDup_cons in Hnd as [Hnotin Hnd]. simpl in Hdrop.
    destruct (P c) eqn:HP.
    + apply drop_eq_cons in Hdrop as (Hk & Hlt & Hdrop).
      rewrite bool_decide_eq_true_2 by done.
      rewrite bool_decide_eq_true_2 by done. simpl.
      destruct (Hopen c (list_elem_of_here _ _) HP) as (ci & Hci & Hcl).
      rewrite Hci. unfold close_chan. rewrite Hcl.
      set (h1 := <[c := set_inbox _ ci]> h).
      destruct (IH (S idx) D (S k) h1 alive Hnd) as (h' & Heq & Hh'); [|done|].
      { intros c' Hc' HP'. unfold h1. rewrite lookup_insert_ne by (intros ->; done).
        apply Hopen; [by apply list_elem_of_further|done]. }
      exists h'. split.
      * rewrite Heq. rewrite filter_cons_False; [done|]. congruence.
      * intros c'. rewrite Hh'.
        destruct (decide (c' = c)) as [->|Hne].
        -- rewrite decide_False by (intros [? _]; done).
           rewrite decide_True by (split; [apply list_elem_of_here|done]).
           unfold h1. by rewrite lookup_insert_eq, Hci.
        -- unfold h1. rewrite lookup_insert_ne by done.
           destruct (decide (c' ∈ rest /\ P c' = true)) as [[Hin HP']|Hn].
           ++ rewrite decide_True; [done|]. split; [by apply list_elem_of_further|done].
           ++ rewrite decide_False; [done|].
              intros [[?|?]%elem_of_cons ?]; [done|]. by apply Hn.
    + assert (Hg : bool_decide (D !! k = Some idx) = false).
      { apply bool_decide_eq_false_2. intros Hk.
        assert (Hin : idx ∈ drop k D).
        { apply list_elem_of_lookup. exists O%nat. by rewrite lookup_drop, Nat.add_0_r. }
        rewrite Hdrop in Hin. apply dead_from_ge in Hin. lia. }
      rewrite Hg, andb_false_r.
      destruct (IH (S idx) D k h (alive ++ [c]) Hnd) as (h' & Heq & Hh'); [|done|].
      { intros c' Hc' HP'. apply Hopen; [by apply list_elem_of_further|done]. }
      exists h'. split.
      * rewrite Heq. rewrite filter_cons_True by done. by rewrite <- app_assoc.
      * intros c'. rewrite Hh'.
        destruct (decide (c' ∈ rest /\ P c' = true)) as [[Hin HP']|Hn].
        -- rewrite decide_True; [done|]. split; [by apply list_elem_of_further|done].
        -- rewrite decide_False; [done|].
           intros [[->|?]%elem_of_cons ?]; [congruence|]. by apply Hn.
Qed.

Lemma sendMessage_ok msg s :
  NoDup (clients s) -> registered_open (heap s) (clients s) ->
  exists h',
    sendMessage msg s =
      Done (set_clients (filter (fun c => inbox_full (heap s) c = false) (clients s))
                        (set_heap h' s)) /\
    (forall c, h' !! c = if decide (c ∈ clients s)
                         then broadcast_to msg <$> heap s !! c
                         else heap s !! c).
Proof.
  intros Hnd Hopen. unfold sendMessage.
  destruct (sendMessage_offer_ok msg (clients s) 0 (heap s) [] Hnd Hopen)
    as (h1 & Hoff & Hh1).
  rewrite Hoff. simpl.
  set (P := inbox_full (heap s)) in *.
  destruct (dead_from P 0 (clients s)) as [|d D'] eqn:HD.
  - simpl. exists h1.
    pose proof (proj1 (dead_from_nil P (clients s) 0) HD) as Hnone.
    split.
    + f_equal. destruct s; unfold set_clients, set_heap; simpl in *. f_equal.
      symmetry. apply filter_all. intros c Hc. by apply Hnone.
    + intros c. rewrite Hh1. destruct (decide (c ∈ clients s)) as [Hin|]; [|done].
      destruct (heap s !! c) as [ci|] eqn:Hci; [|done]. simpl.
      specialize (Hnone c Hin). unfold P, inbox_full in Hnone. rewrite Hci in Hnone.
      unfold offered, broadcast_to. by rewrite Hnone.
  - simpl. rewrite <- HD.
    destruct (sendMessage_sweep_ok P (clients s) 0 (dead_from P 0 (clients s)) 0 h1 [] Hnd)
      as (h2 & Hsw & Hh2); [|done|].
    { intros c Hc HP. rewrite Hh1, decide_True by done.
      destruct (Hopen c Hc) as (ci & Hci & Hcl). rewrite Hci. simpl.
      unfold P, inbox_full in HP. rewrite Hci in HP.
      unfold offered. rewrite HP. eauto. }
    rewrite Hsw. simpl. exists h2. split.
    + destruct s; unfold set_clients, set_heap; simpl in *. done.
    + intros c. rewrite Hh2, Hh1.
      destruct (decide (c ∈ clients s)) as [Hin|Hnin].
      * destruct (heap s !! c) as [ci|] eqn:Hci.
        -- simpl. unfold P, inbox_full. rewrite Hci.
           unfold offered, broadcast_to.
           destruct (chan_full (inbox ci)) eqn:Hf.
           ++ by rewrite decide_True.
           ++ rewrite decide_False; [done|]. intros [_ ?]; done.
        -- simpl. by destruct (decide _).
      * rewrite decide_False; [done|]. intros [? _]; done.
Qed.


(* ===================================================================== *)
(** ** The broker keeps its invariant *)
(* ===================================================================== *)

Lemma wf_open s : wf s -> registered_open (heap s) (clients s).
Proof.
  intros (_ & H & _) c Hc. destruct (H c Hc) as (ci & ? & ? & _). eauto.
Qed.

Lemma wf_NewExecutor : wf NewExecutor.
Proof.
  unfold wf, NewExecutor; simpl. split_and!; try done.
  - constructor.
  - intros c Hc. by apply not_elem_of_nil in Hc.
Qed.

Section BrokerFacts.
Variable encode : Message -> Error + list byte.
Variable decode : list byte -> Error + Message.

Lemma clientReader_iter_outbox now pick_stop cx ob :
  let r := clientReader_iter decode now pick_stop cx ob in
  r_outbox r = ob \/
  exists msg, is_Some (msgEvent msg) /\ ch_closed ob = false /\
              r_outbox r = push msg ob.
Proof.
  unfold clientReader_iter.
  destruct (ReadMessage _ _ _ _) as [c [err|msg]].
  { destruct (post_error _ _); auto. }
  unfold msgType. destruct (msgEvent msg) as [ev|] eqn:Hev; simpl; [|auto].
  destruct (String.eqb _ _); [auto|].
  destruct (stopped cx && _); [auto|].
  unfold try_send.
  destruct (ch_closed ob) eqn:Hcl; [auto|].
  destruct (chan_full ob); [auto|].
  right. exists msg. rewrite Hev. eauto.
Qed.

Lemma clientWriter_iter_inbox now pick tick cx ib :
  let r := clientWriter_iter encode now pick tick cx ib in
  (w_inbox r = ib /\ w_got r = None) \/
  exists m, w_got r = Some m /\ ch_buf ib = m :: ch_buf (w_inbox r) /\
            ch_cap (w_inbox r) = ch_cap ib /\
            ch_closed (w_inbox r) = ch_closed ib.
Proof.
  unfold clientWriter_iter.
  destruct pick.
  - unfold try_recv. destruct (ch_buf ib) as [|m rest] eqn:Hb.
    + destruct (ch_closed ib); [destruct (stopped cx)|]; auto.
    + right. exists m.
      destruct (WriteMessage _ _ _ _ _) as [c [e|]]; [destruct (post_error _ _)|];
        simpl; auto.
  - destruct tick; [|auto].
    destruct (WriteMessage _ _ _ _ _) as [c [e|]]; [destruct (post_error _ _)|];
      simpl; auto.
  - destruct (stopped cx); auto.
Qed.

Lemma new_loc_fresh (h : gmap loc clientInfo) : h !! new_loc h = None.
Proof. apply not_elem_of_dom. unfold new_loc. apply is_fresh. Qed.

Lemma step_loop_other ev s :
  wf s -> chat_event (Loop ev) = None ->
  wf (processEvents ev s) /\ preserved s (processEvents ev s).
Proof.
  intros Hwf Hev. pose proof Hwf as (Hnd & Hreg & Htk & Hoc & Hob).
  destruct ev as [e|cmd| |werr]; [done| | |].
  - (* command *)
    unfold processEvents; simpl. split; [done|].
    split; simpl; try done. intros c ci ->. eauto.
  - (* registration *)
    unfold processEvents; simpl.
    pose proof (new_loc_fresh (heap s)) as Hfresh.
    set (p := new_loc (heap s)) in *.
    assert (Hp : p ∉ clients s).
    { intros Hin. destruct (Hreg p Hin) as (ci & Hci & _). congruence. }
    split.
    + unfold wf; simpl. split_and!; try done.
      * apply NoDup_app. split_and!; [done| |apply NoDup_singleton].
        intros c Hc ->%list_elem_of_singleton. done.
      * intros c [Hc| ->%list_elem_of_singleton]%elem_of_app.
        -- destruct (Hreg c Hc) as (ci & Hci & ?).
           exists ci. rewrite lookup_insert_ne by (intros <-; congruence). done.
        -- rewrite lookup_insert_eq. eexists. split_and!; done.
      * intros c Hc. apply Htk.
        destruct (decide (p = c)) as [<-|Hne]; [done|].
        by rewrite lookup_insert_ne in Hc.
    + split; simpl; try done.
      * intros c. unfold received; simpl.
        destruct (decide (p = c)) as [<-|Hne].
        -- rewrite lookup_insert_eq, Hfresh. done.
        -- by rewrite lookup_insert_ne.
      * by apply prefix_app_r.
      * intros c [Hc| ->%list_elem_of_singleton]%elem_of_app Hn; done.
      * intros c ci Hci. exists ci.
        rewrite lookup_insert_ne by (intros <-; congruence). done.
  - (* client-originated message *)
    unfold processEvents; simpl. unfold try_recv. rewrite Hoc.
    destruct (ch_buf (outbox s)) as [|m rest] eqn:Hbuf.
    { split; [done|]. split; simpl; try done. intros c ci ->. eauto. }
    apply Forall_cons in Hob as [[ev Hm] Hrest].
    unfold SendMessageToBot. simpl. rewrite Hm.
    destruct werr as [err|]; simpl.
    all: split; [unfold wf; simpl; split_and!; done|].
    all: split; simpl; try done; intros c ci ->; eauto.
Qed.

Lemma step_reader now pick_stop cx s :
  wf s ->
  wf (step encode decode (ReaderIter now pick_stop cx) s) /\
  preserved s (step encode decode (ReaderIter now pick_stop cx) s).
Proof.
  intros (Hnd & Hreg & Htk & Hoc & Hob). simpl.
  pose proof (clientReader_iter_outbox now pick_stop cx (outbox s)) as Hr.
  simpl in Hr.
  split.
  - unfold wf; simpl. split_and!; try done.
    + by destruct Hr as [->|(m & _ & _ & ->)].
    + destruct Hr as [->|(m & Hm & _ & ->)]; [done|]. simpl.
      apply Forall_app. split; [done|]. by apply Forall_singleton.
  - split; simpl; try done. intros c ci ->. eauto.
Qed.

Lemma step_writer c now pick tick cx s :
  wf s ->
  wf (step encode decode (WriterIter c now pick tick cx) s) /\
  preserved s (step encode decode (WriterIter c now pick tick cx) s).
Proof.
  intros Hwf. pose proof Hwf as (Hnd & Hreg & Htk & Hoc & Hob). simpl.
  destruct (heap s !! c) as [ci|] eqn:Hci.
  2:{ split; [done|]. split; try done. intros c' ci' ->. eauto. }
  pose proof (clientWriter_iter_inbox now pick tick cx (inbox ci)) as Hw.
  simpl in Hw.
  set (r := clientWriter_iter encode now pick tick cx (inbox ci)) in *.
  assert (Hflags : ch_closed (w_inbox r) = ch_closed (inbox ci) /\
                   ch_cap (w_inbox r) = ch_cap (inbox ci)).
  { destruct Hw as [[-> _]|(m & _ & _ & ? & ?)]; done. }
  destruct Hflags as [Hcl Hcap].
  split.
  - unfold wf; simpl. split_and!; try done.
    + intros c' Hc'. destruct (Hreg c' Hc') as (ci' & Hci' & Ho & Hc8).
      destruct (decide (c = c')) as [<-|Hne].
      * rewrite lookup_insert_eq. eexists. split; [done|]. simpl.
        assert (ci' = ci) as -> by congruence. split; congruence.
      * rewrite lookup_insert_ne by done. eauto.
    + intros c' Hc'.
      destruct (decide (c = c')) as [<-|Hne]; [by rewrite lookup_insert_eq in Hc'|].
      rewrite lookup_insert_ne in Hc' by done.
      unfold note_taken. destruct (w_got r); [|by apply Htk].
      rewrite lookup_insert_ne by done. by apply Htk.
  - split; simpl; try done.
    + intros c'. unfold received; simpl.
      destruct (decide (c = c')) as [<-|Hne].
      * rewrite lookup_insert_eq, Hci. simpl.
        destruct Hw as [[-> ->]|(m & -> & Hbuf & _)]; simpl; [done|].
        rewrite lookup_insert_eq. simpl. rewrite Hbuf.
        by rewrite <- app_assoc.
      * rewrite lookup_insert_ne by done.
        unfold note_taken. destruct (w_got r); [|done].
        by rewrite lookup_insert_ne.
    + intros c' ci' Hci'.
      destruct (decide (c = c')) as [<-|Hne].
      * rewrite lookup_insert_eq. eexists. split; [done|]. simpl.
        assert (ci' = ci) as -> by congruence. done.
      * rewrite lookup_insert_ne by done. eauto.
Qed.

Lemma step_other a s :
  wf s -> chat_event a = None ->
  wf (step encode decode a s) /\ preserved s (step encode decode a s).
Proof.
  intros Hwf Ha. destruct a as [ev|now pick_stop cx|c now pick tick cx].
  - by apply step_loop_other.
  - by apply step_reader.
  - by apply step_writer.
Qed.

Lemma step_chat e s :
  wf s ->
  let msg := mkMessage e (counter s) in
  let s' := processEvents (FromInbox e) s in
  processEvents_iter (FromInbox e) s = Done s' /\
  wf s' /\
  counter s' = int_wrap (counter s + 1) /\
  clients s' = filter (fun c => inbox_full (heap s) c = false) (clients s) /\
  (forall c, heap s' !! c = if decide (c ∈ clients s)
                            then broadcast_to msg <$> heap s !! c
                            else heap s !! c) /\
  taken s' = taken s /\ outbox s' = outbox s /\
  xmppStream s' = xmppStream s /\ logger s' = logger s.
Proof.
  intros Hwf msg. pose proof Hwf as (Hnd & Hreg & Htk & Hoc & Hob).
  destruct (sendMessage_ok msg s Hnd (wf_open s Hwf)) as (h' & Hsend & Hh').
  unfold processEvents, processEvents_iter. fold msg. rewrite Hsend. simpl.
  split_and!; try done.
  unfold wf; simpl. split_and!; try done.
  - by apply NoDup_filter.
  - intros c [Hnf Hc]%list_elem_of_filter.
    destruct (Hreg c Hc) as (ci & Hci & Ho & Hc8).
    rewrite Hh', decide_True, Hci by done. simpl.
    unfold inbox_full in Hnf. rewrite Hci in Hnf.
    unfold broadcast_to. rewrite Hnf. eexists. split; [done|]. simpl. done.
  - intros c Hc. apply Htk. rewrite Hh' in Hc.
    destruct (decide (c ∈ clients s)); [|done].
    by destruct (heap s !! c).
Qed.

Lemma step_chat_received e s c :
  wf s ->
  received (processEvents (FromInbox e) s) c =
    if decide (c ∈ clients s /\ inbox_full (heap s) c = false)
    then received s c ++ [mkMessage e (counter s)]
    else received s c.
Proof.
  intros Hwf.
  destruct (step_chat e s Hwf) as (_ & _ & _ & _ & Hh & Htk & _).
  unfold received. rewrite Htk, Hh.
  destruct (decide (c ∈ clients s)) as [Hin|Hnin].
  - destruct (heap s !! c) as [ci|] eqn:Hci; simpl.
    + unfold inbox_full. rewrite Hci. unfold broadcast_to.
      destruct (chan_full (inbox ci)) eqn:Hf; simpl.
      * rewrite decide_False; [done|]. intros [_ ?]; done.
      * rewrite decide_True by done. by rewrite app_assoc.
    + destruct Hwf as (_ & Hreg & _). destruct (Hreg c Hin) as (? & ? & _). congruence.
  - rewrite decide_False; [done|]. intros [? _]; done.
Qed.

Lemma step_wf a s : wf s -> wf (step encode decode a s).
Proof.
  intros Hwf. destruct (chat_event a) as [e|] eqn:Ha.
  - destruct a as [[e'| | |]| |]; try done. simpl.
    by destruct (step_chat e' s Hwf) as (_ & ? & _).
  - by apply step_other.
Qed.

Lemma run_snoc acts a s :
  run encode decode (acts ++ [a]) s = step encode decode a (run encode decode acts s).
Proof. unfold run. by rewrite fold_left_app. Qed.

Lemma run_cons a acts s :
  run encode decode (a :: acts) s = run encode decode acts (step encode decode a s).
Proof. done. Qed.

Lemma run_wf acts : forall s, wf s -> wf (run encode decode acts s).
Proof.
  induction acts as [|a acts IH]; intros s Hwf; [done|].
  rewrite run_cons. apply IH. by apply step_wf.
Qed.

Lemma reachable_wf acts : wf (run encode decode acts NewExecutor).
Proof. apply run_wf, wf_NewExecutor. Qed.


Lemma chat_event_inv a e :
  chat_event a = Some e -> a = Loop (FromInbox e).
Proof. destruct a as [[| | |]| |]; simpl; congruence. Qed.

Lemma int_wrap_small z : - 2 ^ 63 <= z < 2 ^ 63 -> int_wrap z = z.
Proof. intros H. unfold int_wrap. rewrite Z.mod_small; lia. Qed.

Lemma registered_not_full s c msgs :
  wf s -> c ∈ clients s -> received s c = msgs ->
  (length msgs < DefaultClientBufferSize)%nat ->
  inbox_full (heap s) c = false.
Proof.
  intros (_ & Hreg & _) Hc Hrec Hlen.
  destruct (Hreg c Hc) as (ci & Hci & _ & Hcap).
  unfold inbox_full. rewrite Hci. unfold chan_full. rewrite Hcap.
  apply Nat.leb_gt.
  unfold received in Hrec. rewrite Hci in Hrec. simpl in Hrec.
  rewrite <- Hrec, length_app in Hlen. lia.
Qed.

Lemma quiet_run acts : forall s,
  wf s -> chat_events acts = [] ->
  wf (run encode decode acts s) /\
  counter (run encode decode acts s) = counter s /\
  (forall c, received (run encode decode acts s) c = received s c).
Proof.
  induction acts as [|a acts IH]; intros s Hwf Hq; [done|].
  rewrite run_cons. simpl in Hq.
  destruct (chat_event a) eqn:Ha; [done|].
  destruct (step_other a s Hwf Ha) as [Hwf' Hp].
  destruct (IH _ Hwf' Hq) as (? & Hc & Hr). split_and!; [done| |].
  - rewrite Hc. apply Hp.
  - intros c. rewrite Hr. apply Hp.
Qed.

Lemma numbered_cons k e evs :
  numbered k (e :: evs) = mkMessage e (Z.of_nat k) :: numbered (S k) evs.
Proof.
  unfold numbered. rewrite imap_cons, Nat.add_0_r. f_equal.
  apply imap_ext. intros i x _. simpl. do 2 f_equal. lia.
Qed.

Lemma busy_run acts : forall s msgs (C : list loc),
  wf s ->
  counter s = Z.of_nat (length msgs) ->
  (forall c, c ∈ C -> c ∈ clients s /\ received s c = msgs) ->
  (length msgs + length (chat_events acts) <= DefaultClientBufferSize)%nat ->
  let s1 := run encode decode acts s in
  counter s1 = Z.of_nat (length msgs + length (chat_events acts)) /\
  forall c, c ∈ C ->
    c ∈ clients s1 /\
    received s1 c = msgs ++ numbered (length msgs) (chat_events acts).
Proof.
  induction acts as [|a acts IH]; intros s msgs C Hwf Hcnt HC Hlen.
  - simpl. rewrite Nat.add_0_r. split; [done|].
    intros c Hc. unfold numbered. simpl. rewrite app_nil_r. by apply HC.
  - rewrite run_cons. simpl in *.
    destruct (chat_event a) as [e|] eqn:Ha.
    + apply chat_event_inv in Ha. subst a. simpl in Hlen.
      destruct (step_chat e s Hwf) as (_ & Hwf' & Hc' & Hcl & _).
      simpl step.
      assert (Hk : (length msgs < DefaultClientBufferSize)%nat) by lia.
      pose proof Hk as Hk8. unfold DefaultClientBufferSize in Hk8.
      destruct (IH (processEvents (FromInbox e) s)
                   (msgs ++ [mkMessage e (counter s)]) C Hwf') as [Hcnt1 HC1].
      * rewrite Hc', Hcnt, length_app. simpl.
        rewrite int_wrap_small by lia. lia.
      * intros c Hc. destruct (HC c Hc) as [Hin Hrec].
        pose proof (registered_not_full s c msgs Hwf Hin Hrec Hk) as Hnf.
        split.
        -- rewrite Hcl. apply list_elem_of_filter. done.
        -- rewrite step_chat_received by done.
           rewrite decide_True by done. by rewrite Hrec.
      * rewrite length_app. simpl. lia.
      * split.
        -- rewrite Hcnt1, length_app. simpl. f_equal. lia.
        -- intros c Hc. destruct (HC1 c Hc) as [Hin Hrec]. split; [done|].
           rewrite Hrec, numbered_cons, <- app_assoc, length_app. simpl.
           rewrite Hcnt. do 3 f_equal. lia.
    + destruct (step_other a s Hwf Ha) as [Hwf' Hp].
      apply (IH _ msgs C Hwf').
      * by rewrite (pres_counter _ _ Hp).
      * intros c Hc. destruct (HC c Hc) as [Hin Hrec]. split.
        -- destruct (pres_clients _ _ Hp) as [k ->]. apply elem_of_app. by left.
        -- by rewrite (pres_received _ _ Hp).
      * done.
Qed.

(** C1. Let [pre] be any run of the broker from [NewExecutor] without a
    chat event (so it registers K clients, for any K), and [acts] any run
    after it with N chat events, N at most the inbox capacity
    [DefaultClientBufferSize], interleaved with any other actions
    (commands, registrations, client messages, readers, writers). Then
    every client registered by [pre] is still registered, and what was
    queued for it ([received]) is exactly the N events in the order the
    loop took them, with the IDs 0, 1, ..., N-1; the counter, 0 before the
    first event, ends at N. *)
Theorem broadcast_in_order (pre acts : list action) :
  chat_events pre = [] ->
  (length (chat_events acts) <= DefaultClientBufferSize)%nat ->
  let s0 := run encode decode pre NewExecutor in
  let s1 := run encode decode acts s0 in
  counter s0 = 0 /\
  counter s1 = Z.of_nat (length (chat_events acts)) /\
  forall c, c ∈ clients s0 ->
    c ∈ clients s1 /\
    received s0 c = [] /\
    received s1 c = imap (fun i e => mkMessage e (Z.of_nat i)) (chat_events acts).
Proof.
  intros Hq Hlen s0 s1.
  destruct (quiet_run pre NewExecutor wf_NewExecutor Hq) as (Hwf0 & Hc0 & Hr0).
  fold s0 in Hwf0, Hc0, Hr0.
  destruct (busy_run acts s0 [] (clients s0) Hwf0) as [Hcnt HC]; [done| |done|].
  { intros c Hc. split; [done|]. by rewrite Hr0. }
  split_and!; [done|done|].
  intros c Hc. destruct (HC c Hc) as [Hin Hrec]. split_and!; [done| |done].
  by rewrite Hr0.
Qed.

Lemma pruned_stays acts : forall s c,
  wf s -> c ∉ clients s ->
  (exists ci, heap s !! c = Some ci /\ ch_closed (inbox ci) = true) ->
  let s' := run encode decode acts s in
  (c ∉ clients s') /\
  (exists ci, heap s' !! c = Some ci /\ ch_closed (inbox ci) = true) /\
  received s' c = received s c.
Proof.
  induction acts as [|a acts IH]; intros s c Hwf Hout (ci & Hci & Hcl); [by eauto|].
  rewrite run_cons.
  assert (Hstep : (c ∉ clients (step encode decode a s)) /\
            (exists ci', heap (step encode decode a s) !! c = Some ci' /\
                         ch_closed (inbox ci') = true) /\
            received (step encode decode a s) c = received s c).
  { destruct (chat_event a) as [e|] eqn:Ha.
    - apply chat_event_inv in Ha. subst a. simpl step.
      destruct (step_chat e s Hwf) as (_ & _ & _ & Hcls & Hh & _).
      split_and!.
      + rewrite Hcls. intros [_ ?]%list_elem_of_filter. done.
      + rewrite Hh, decide_False by done. eauto.
      + rewrite step_chat_received by done.
        rewrite decide_False; [done|]. intros [? _]; done.
    - destruct (step_other a s Hwf Ha) as [_ Hp]. split_and!.
      + intros Hin. pose proof (pres_new _ _ Hp c Hin Hout). congruence.
      + destruct (pres_heap _ _ Hp c ci Hci) as (ci' & ? & ? & _).
        exists ci'. split; congruence.
      + apply Hp. }
  destruct Hstep as (Hout' & Hcl' & Hrec').
  destruct (IH (step encode decode a s) c (step_wf a s Hwf) Hout' Hcl')
    as (? & ? & Hrec).
  split_and!; [done|done|]. simpl in Hrec. by rewrite Hrec.
Qed.

(** C3. In any state the broker reaches, the broadcast of a chat event
    completes without panic and, for every registered client [c] (the
    registry names it once): if its inbox is full, [c] is removed from the
    registry, its inbox is closed with nothing queued, and in every later
    state [c] is still out of the registry, its inbox still closed, and
    nothing more was queued for it; if its inbox is not full, [c] stays
    registered and the message is queued, whatever happens to the
    others. *)
Theorem full_inbox_pruned (pre : list action) (e : option IncomingEvent) (c : loc) :
  let s := run encode decode pre NewExecutor in
  let msg := mkMessage e (counter s) in
  let s' := step encode decode (Loop (FromInbox e)) s in
  c ∈ clients s ->
  exists ci,
    heap s !! c = Some ci /\ ch_closed (inbox ci) = false /\
    NoDup (clients s) /\
    processEvents_iter (FromInbox e) s = Done s' /\
    (chan_full (inbox ci) = true ->
       (c ∉ clients s') /\
       heap s' !! c = Some (set_inbox (shut (inbox ci)) ci) /\
       received s' c = received s c /\
       forall post : list action,
         let s'' := run encode decode post s' in
         (c ∉ clients s'') /\
         received s'' c = received s c /\
         exists ci', heap s'' !! c = Some ci' /\ ch_closed (inbox ci') = true) /\
    (chan_full (inbox ci) = false ->
       c ∈ clients s' /\
       heap s' !! c = Some (set_inbox (push msg (inbox ci)) ci) /\
       received s' c = received s c ++ [msg]).
Proof.
  intros s msg s' Hc.
  pose proof (reachable_wf pre) as Hwf. fold s in Hwf.
  pose proof Hwf as (Hnd & Hreg & _).
  destruct (Hreg c Hc) as (ci & Hci & Ho & _).
  destruct (step_chat e s Hwf) as (Hdone & Hwf' & _ & Hcls & Hh & _).
  pose proof (step_chat_received e s c Hwf) as Hrec.
  change (processEvents (FromInbox e) s) with s' in *.
  assert (Hfull : inbox_full (heap s) c = chan_full (inbox ci)).
  { unfold inbox_full. by rewrite Hci. }
  rewrite Hfull in Hrec.
  specialize (Hh c). rewrite decide_True, Hci in Hh by done.
  simpl in Hh. unfold broadcast_to in Hh.
  exists ci. split_and!; try done.
  - intros Hf. rewrite Hf in Hh, Hrec.
    rewrite decide_False in Hrec by (intros [_ ?]; done).
    assert (Hout : c ∉ clients s').
    { rewrite Hcls. intros [Hnf _]%list_elem_of_filter. congruence. }
    split_and!; try done.
    intros post s''.
    destruct (pruned_stays post s' c Hwf' Hout) as (? & ? & Hr); [by eauto|].
    split_and!; [done| |done]. fold s'' in Hr. by rewrite Hr.
  - intros Hf. rewrite Hf in Hh, Hrec.
    rewrite decide_True in Hrec by done.
    split_and!; try done.
    rewrite Hcls. apply list_elem_of_filter. split; [congruence|done].
Qed.


(** C6. In any state the broker reaches, when the event loop takes the
    message at the head of the outbox, that message carries an event, and
    the stanza given to the chat stream is the group message to
    [golang@conference.jabber.ru] whose body is [Data["body"]] of the
    message; registry, counter and store are unchanged, and
    [SendMessageToBot] does the same whatever the ID of the message. *)
Theorem client_message_forwarded (pre : list action) (write_err : option string)
    (msg : Message) (rest : list Message) :
  let s := run encode decode pre NewExecutor in
  let s' := step encode decode (Loop (FromOutbox write_err)) s in
  ch_buf (outbox s) = msg :: rest ->
  exists ev,
    msgEvent msg = Some ev /\
    xmppStream s' = xmppStream s ++
      [mkEntityMessage GROUPCHAT "golang@conference.jabber.ru"
                       (map_index (Data ev) "body")] /\
    ch_buf (outbox s') = rest /\
    clients s' = clients s /\ counter s' = counter s /\ heap s' = heap s /\
    forall (id : Z) (t : State),
      SendMessageToBot write_err (Some (mkMessage (msgEvent msg) id)) t
        = SendMessageToBot write_err (Some msg) t.
Proof.
  intros s s' Hbuf.
  pose proof (reachable_wf pre) as Hwf. fold s in Hwf.
  destruct Hwf as (_ & _ & _ & Hoc & Hob).
  rewrite Hbuf in Hob. apply Forall_cons in Hob as [[ev Hev] _].
  exists ev. subst s'. simpl step.
  unfold processEvents, processEvents_iter, try_recv. rewrite Hbuf.
  unfold SendMessageToBot. simpl. rewrite Hev.
  destruct write_err; simpl; split_and!; try done.
Qed.

Lemma conn_Write_wdeadline p c :
  wdeadline (fst (conn_Write p c)) = wdeadline c.
Proof.
  unfold conn_Write. destruct (cclosed c), (wroom c) as [k|]; try done.
  by destruct (length p <=? k)%nat.
Qed.

Lemma WriteMessage_deadline now timeout c msg buf :
  encode msg = inr buf ->
  Z.of_nat (length buf) <= DefaultMessageLengthCap ->
  wdeadline (fst (WriteMessage encode now timeout c msg)) = Some (now + timeout).
Proof.
  intros He Hlen. unfold WriteMessage. rewrite He.
  destruct (Z.of_nat (length buf) >? DefaultMessageLengthCap) eqn:E; [lia|].
  set (lb := BigEndian_PutUint16 _).
  set (c1 := SetWriteDeadline _ c).
  pose proof (conn_Write_wdeadline lb c1) as H1.
  destruct (conn_Write lb c1) as [c2 [err|]]; simpl in *; [done|].
  unfold io_Copy. destruct buf as [|b buf']; simpl; [done|].
  by rewrite conn_Write_wdeadline.
Qed.

(** C5, as amended. In any state the broker reaches, when the reader has
    decoded a message that carries an event: a message of type "pong" is
    dropped, the iteration changing nothing but what the read consumed;
    any other message is queued on the outbox when only the send is
    ready, the reader returns without queuing it when only the stop
    signal is ready, either of the two when both are ready (the choice is
    the runtime's), and the reader waits, nothing changed, while neither
    is ready. *)
Theorem reader_dispatch (pre : list action) now pick_stop cx c msg ev :
  let s := run encode decode pre NewExecutor in
  let ob := outbox s in
  let r := clientReader_iter decode now pick_stop cx ob in
  let forwarded := mkReaderResult Continue (with_conn c cx) (push msg ob) [] in
  let abandoned := mkReaderResult Return (with_conn (conn_Close c) cx) ob [] in
  let waiting := mkReaderResult Blocked (with_conn c cx) ob [] in
  ReadMessage decode now DefaultHeartbeatTimeout (conn cx) = (c, inr msg) ->
  msgEvent msg = Some ev ->
  (Type_ ev = "pong" -> r = mkReaderResult Continue (with_conn c cx) ob []) /\
  (Type_ ev <> "pong" ->
     r = match stopped cx, chan_full ob with
         | false, false => forwarded
         | true, true => abandoned
         | true, false => if pick_stop then abandoned else forwarded
         | false, true => waiting
         end).
Proof.
  intros s ob r forwarded abandoned waiting HR Hev.
  pose proof (reachable_wf pre) as (_ & _ & _ & Hopen & _).
  fold s in Hopen. fold ob in Hopen.
  subst r. unfold clientReader_iter. rewrite HR.
  unfold msgType. rewrite Hev. simpl.
  destruct (String.eqb_spec (Type_ ev) "pong") as [Heq|Hne].
  { split; [done|]. intros Hn. by destruct Hn. }
  split; [intros Heq; by destruct Hne|]. intros _.
  unfold try_send. rewrite Hopen. simpl.
  destruct (stopped cx), (chan_full ob), pick_stop; reflexivity.
Qed.

(** C7. When the ticker fires, the writer builds the message of type
    "ping" with no [Data] and ID -1, takes nothing from its inbox, and
    passes that message to [WriteMessage] with [DefaultHeartbeatTimeout]:
    it goes on when the write succeeds and stops, the error logged, when
    it fails. A message taken from the inbox is written the same way, and
    in both cases the write deadline set on the connection is the present
    time plus [DefaultHeartbeatTimeout]. *)
Theorem heartbeat_ping now cx ib :
  let r := clientWriter_iter encode now WTick true cx ib in
  let w := WriteMessage encode now DefaultHeartbeatTimeout (conn cx)
                        (mkMessage (Some (mkEvent "ping" None)) (-1)) in
  (msgType ping = Some "ping"%string /\ msgData ping = Some None /\ ID ping = -1) /\
  (w_inbox r = ib /\ w_got r = None) /\
  (snd w = None -> r = mkWriterResult Continue (with_conn (fst w) cx) ib None []) /\
  (forall err, snd w = Some err ->
     w_status r <> Continue /\
     w_logged r = [("failed to write ping message: " +:+ Error_string err)%string]) /\
  (forall buf, encode ping = inr buf ->
     Z.of_nat (length buf) <= DefaultMessageLengthCap ->
     wdeadline (conn (w_ctx r)) = Some (now + DefaultHeartbeatTimeout)) /\
  (forall tick msg q,
     try_recv ib = Received msg q ->
     let r' := clientWriter_iter encode now WInbox tick cx ib in
     let w' := WriteMessage encode now DefaultHeartbeatTimeout (conn cx) msg in
     (snd w' = None ->
        r' = mkWriterResult Continue (with_conn (fst w') cx) q (Some msg) []) /\
     (forall buf, encode msg = inr buf ->
        Z.of_nat (length buf) <= DefaultMessageLengthCap ->
        wdeadline (conn (w_ctx r')) = Some (now + DefaultHeartbeatTimeout))).
Proof.
  intros r w. subst r. unfold clientWriter_iter.
  change (mkMessage (Some (mkEvent "ping" None)) (-1)) with ping in w.
  split_and!; try done.
  - fold w. by destruct w as [c' [err|]]; [destruct (post_error _ _)|].
  - fold w. by destruct w as [c' [err|]]; [destruct (post_error _ _)|].
  - fold w. intros Hw. destruct w as [c' [err|]]; [done|]. done.
  - fold w. intros err Hw. destruct w as [c' [err'|]]; [|done].
    simpl in Hw. injection Hw as ->.
    by destruct (post_error _ _).
  - intros buf He Hlen.
    pose proof (WriteMessage_deadline now DefaultHeartbeatTimeout (conn cx) ping buf He Hlen)
      as Hd.
    fold w. fold w in Hd. destruct w as [c' [err|]]; [destruct (post_error _ _)|];
      simpl in *; done.
  - intros tick msg q Hrecv. simpl. rewrite Hrecv. split.
    + intros Hw.
      destruct (WriteMessage encode now DefaultHeartbeatTimeout (conn cx) msg)
        as [c' [err|]]; done.
    + intros buf He Hlen.
      pose proof (WriteMessage_deadline now DefaultHeartbeatTimeout (conn cx) msg buf
                    He Hlen) as Hd.
      destruct (WriteMessage encode now DefaultHeartbeatTimeout (conn cx) msg)
        as [c' [err|]]; [destruct (post_error _ _)|]; simpl in *; done.
Qed.
End BrokerFacts.

(** C8. A round of the event loop on a control command adds one line to
    the log and changes nothing else: registry, counter, store (all client
    queues), outbox, chat stream, replies and what the writers have taken
    are the same. *)
Theorem command_is_inert (cmd : string) (s : State) :
  let s' := processEvents (FromCmdInbox cmd) s in
  logger s' = logger s ++ [("ignoring cmd: '" +:+ cmd +:+ "'")%string] /\
  clients s' = clients s /\ counter s' = counter s /\ heap s' = heap s /\
  outbox s' = outbox s /\ xmppStream s' = xmppStream s /\
  replies s' = replies s /\ taken s' = taken s.
Proof. simpl. split_and!; reflexivity. Qed.

(* ===================================================================== *)
(** ** The theorems at concrete inputs *)
(* ===================================================================== *)

(** The scenarios of the spec, run on the model. *)
Example scenario_first_message :
  let s := run demo_encode demo_decode
               [Loop FromClientRequests; Loop (FromInbox (Some hi_event))] NewExecutor in
  (inbox <$> heap s !! 0%nat)
    = Some (mkChan DefaultClientBufferSize [mkMessage (Some hi_event) 0] false).
Proof. vm_compute. reflexivity. Qed.

Example scenario_both_saturated :
  let s8 := run demo_encode demo_decode eight_unread NewExecutor in
  let s9 := step demo_encode demo_decode (Loop (FromInbox (Some hi_event))) s8 in
  clients s8 = [0%nat; 1%nat] /\ clients s9 = [] /\ counter s9 = 9 /\
  (ch_closed ∘ inbox <$> heap s9 !! 0%nat) = Some true /\
  (ch_closed ∘ inbox <$> heap s9 !! 1%nat) = Some true.
Proof. vm_compute. split_and!; reflexivity. Qed.

Lemma broadcast_in_order_witness :
  chat_events two_clients = [] /\
  (length (chat_events three_events) <= DefaultClientBufferSize)%nat /\
  received (run demo_encode demo_decode three_events
                (run demo_encode demo_decode two_clients NewExecutor)) 0%nat
    = [mkMessage (Some hi_event) 0; mkMessage (Some hi_event) 1;
       mkMessage (Some hi_event) 2].
Proof.
  assert (H1 : chat_events two_clients = []) by reflexivity.
  assert (H2 : (length (chat_events three_events) <= DefaultClientBufferSize)%nat)
    by (vm_compute; lia).
  split; [exact H1|]. split; [exact H2|].
  destruct (broadcast_in_order demo_encode demo_decode two_clients three_events H1 H2)
    as (_ & _ & H).
  destruct (H 0%nat) as (_ & _ & Hr).
  - vm_compute. apply list_elem_of_here.
  - exact Hr.
Defined.


Lemma full_inbox_pruned_witness :
  (0%nat ∈ clients (run demo_encode demo_decode eight_unread NewExecutor)) /\
  (0%nat ∉ clients (step demo_encode demo_decode (Loop (FromInbox (Some hi_event)))
                         (run demo_encode demo_decode eight_unread NewExecutor))).
Proof.
  assert (H : 0%nat ∈ clients (run demo_encode demo_decode eight_unread NewExecutor)).
  { vm_compute. apply list_elem_of_here. }
  split; [exact H|].
  destruct (full_inbox_pruned demo_encode demo_decode eight_unread (Some hi_event) 0%nat H)
    as (ci & Hci & _ & _ & _ & Hfull & _).
  vm_compute in Hci. injection Hci as <-.
  destruct Hfull as [Hout _]; [vm_compute; reflexivity|].
  exact Hout.
Defined.


Lemma reader_dispatch_witness :
  ReadMessage demo_decode 0 DefaultHeartbeatTimeout (conn (demo_ctx reply_frame))
    = (fst (ReadMessage demo_decode 0 DefaultHeartbeatTimeout (conn (demo_ctx reply_frame))),
       inr reply_msg) /\
  msgEvent reply_msg = Some reply_event /\
  r_outbox (clientReader_iter demo_decode 0 false (demo_ctx reply_frame)
                              (outbox NewExecutor))
    = push reply_msg (outbox NewExecutor).
Proof.
  assert (H : ReadMessage demo_decode 0 DefaultHeartbeatTimeout (conn (demo_ctx reply_frame))
    = (fst (ReadMessage demo_decode 0 DefaultHeartbeatTimeout (conn (demo_ctx reply_frame))),
       inr reply_msg)) by (vm_compute; reflexivity).
  split; [exact H|]. split; [reflexivity|].
  destruct (reader_dispatch demo_encode demo_decode [] 0 false (demo_ctx reply_frame) _
              reply_msg reply_event H eq_refl) as [_ Hfwd].
  assert (Hne : Type_ reply_event <> "pong"%string) by (vm_compute; discriminate).
  exact (f_equal r_outbox (Hfwd Hne)).
Defined.

(** C5, as the claim states it, fails on a decoded message that carries no
    event: it is not of type "pong", the stop signal is not closed and the
    outbox has room, yet the message is not queued; the selection
    [msg.Type] panics, the reader returns, and the recovered panic is posted
    as the connection's error. *)
Lemma reader_faults_without_event :
  let cx := demo_ctx [x00; x01; x07] in
  let r := clientReader_iter demo_decode 0 false cx (outbox NewExecutor) in
  snd (ReadMessage demo_decode 0 DefaultHeartbeatTimeout (conn cx))
    = inr (mkMessage None 7) /\
  msgType (mkMessage None 7) <> Some "pong"%string /\
  stopped cx = false /\ chan_full (outbox NewExecutor) = false /\
  r_status r = Return /\
  r_outbox r = outbox NewExecutor /\
  ch_buf (errors (r_ctx r)) = [ErrPanic nil_deref].
Proof. vm_compute. split_and!; try reflexivity. discriminate. Qed.

Lemma client_message_forwarded_witness :
  ch_buf (outbox (run demo_encode demo_decode
                      [ReaderIter 0 false (demo_ctx reply_frame)] NewExecutor))
    = [reply_msg] /\
  xmppStream (step demo_encode demo_decode (Loop (FromOutbox None))
                (run demo_encode demo_decode
                     [ReaderIter 0 false (demo_ctx reply_frame)] NewExecutor))
    = [mkEntityMessage GROUPCHAT "golang@conference.jabber.ru" "yo"].
Proof.
  assert (H : ch_buf (outbox (run demo_encode demo_decode
                      [ReaderIter 0 false (demo_ctx reply_frame)] NewExecutor))
              = [reply_msg]) by (vm_compute; reflexivity).
  split; [exact H|].
  destruct (client_message_forwarded demo_encode demo_decode
              [ReaderIter 0 false (demo_ctx reply_frame)] None reply_msg [] H)
    as (ev & Hev & Hx & _).
  injection Hev as <-. exact Hx.
Defined.

Lemma WriteMessage_rejects_oversized_witness :
  demo_encode long_msg = inr long_buf /\
  Z.of_nat (length long_buf) > DefaultMessageLengthCap /\
  WriteMessage demo_encode 0 DefaultHeartbeatTimeout (demo_conn []) long_msg
    = (demo_conn [], Some ErrTooLong).
Proof.
  assert (H1 : demo_encode long_msg = inr long_buf) by (vm_compute; reflexivity).
  assert (H2 : Z.of_nat (length long_buf) > DefaultMessageLengthCap)
    by (vm_compute; reflexivity).
  split; [exact H1|]. split; [exact H2|].
  exact (proj1 (WriteMessage_rejects_oversized demo_encode 0 DefaultHeartbeatTimeout
                  (demo_conn []) long_msg) long_buf H1 H2).
Defined.

(* ===================================================================== *)
(** ** The broadcast on any state *)
(* ===================================================================== *)

Lemma sendMessage_sweep_sublist cs : forall idx D k h alive,
  match sendMessage_sweep idx cs D k h alive with
  | Done (_, alive') => exists kept, alive' = alive ++ kept /\ kept `sublist_of` cs
  | Panicked _ _ => True
  end.
Proof.
  induction cs as [|c rest IH]; intros idx D k h alive; cbn [sendMessage_sweep].
  - exists []. by rewrite app_nil_r.
  - destruct (bool_decide _ && bool_decide _).
    + destruct (h !! c) as [ci|]; [|done].
      destruct (close_chan (inbox ci)) as [q|]; [|done].
      specialize (IH (S idx) D (S k) (<[c:=set_inbox q ci]> h) alive).
      destruct (sendMessage_sweep _ _ _ _ _ _) as [[h' alive']|]; [|done].
      destruct IH as (kept & -> & Hsub). exists kept. split; [done|].
      by apply sublist_cons.
    + specialize (IH (S idx) D k h (alive ++ [c])).
      destruct (sendMessage_sweep _ _ _ _ _ _) as [[h' alive']|]; [|done].
      destruct IH as (kept & -> & Hsub). exists (c :: kept).
      split; [by rewrite <- app_assoc|]. by apply sublist_skip.
Qed.

Lemma sendMessage_only_prunes (msg : Message) (s : State) :
  exists h',
    match sendMessage msg s with
    | Done s' =>
        exists cs', s' = set_clients cs' (set_heap h' s) /\
                    cs' `sublist_of` clients s
    | Panicked s' _ => s' = set_heap h' s
    end.
Proof.
  unfold sendMessage.
  destruct (sendMessage_offer msg 0 (clients s) (heap s) []) as [[h dead]|[h dead] why].
  2:{ by exists h. }
  destruct (length dead =? 0)%nat.
  { exists h, (clients s). split; [by destruct s|done]. }
  pose proof (sendMessage_sweep_sublist (clients s) 0 dead 0 h []) as Hsw.
  destruct (sendMessage_sweep 0 (clients s) dead 0 h []) as [[h' alive]|[h' alive] why].
  - exists h'. destruct Hsw as (kept & -> & Hsub). exists kept. done.
  - by exists h'.
Qed.

Lemma chat_round_frame (e : option IncomingEvent) (s : State) :
  let s' := processEvents (FromInbox e) s in
  clients s' `sublist_of` clients s /\
  outbox s' = outbox s /\ xmppStream s' = xmppStream s /\
  replies s' = replies s /\ taken s' = taken s /\
  ((counter s' = int_wrap (counter s + 1) /\ logger s' = logger s) \/
   (counter s' = counter s /\ clients s' = clients s /\
    exists why, logger s' = logger s ++
                  [("catched panic in processEvents: " +:+ why)%string])).
Proof.
  unfold processEvents, processEvents_iter.
  destruct (sendMessage_only_prunes (mkMessage e (counter s)) s) as (h' & H).
  destruct (sendMessage (mkMessage e (counter s)) s) as [s1|s1 why].
  - destruct H as (cs' & -> & Hsub). simpl. split_and!; try done. by left.
  - subst s1. simpl. split_and!; try done. right. eauto.
Qed.

(** X5. Whatever the state of the [Executor], a round of the event loop on
    a chat event changes nothing but the store, the registry, the counter
    and the log, and never adds to the registry: the registry after it is a
    sublist of the one before. Either the broadcast completed, and the
    counter was incremented (with wrap-around) and nothing logged, or it
    panicked, and then registry and counter are unchanged and the recovered
    panic is the one line logged. *)
Theorem broadcast_only_prunes (e : option IncomingEvent) (s : State) :
  let s' := processEvents (FromInbox e) s in
  clients s' `sublist_of` clients s /\
  outbox s' = outbox s /\ xmppStream s' = xmppStream s /\
  replies s' = replies s /\ taken s' = taken s /\
  ((counter s' = int_wrap (counter s + 1) /\ logger s' = logger s) \/
   (counter s' = counter s /\ clients s' = clients s /\
    exists why, logger s' = logger s ++
                  [("catched panic in processEvents: " +:+ why)%string])).
Proof. apply chat_round_frame. Qed.

(* ===================================================================== *)
(** ** More invariants of the reachable states *)
(* ===================================================================== *)

Lemma wf_ext_NewExecutor : wf_ext NewExecutor.
Proof.
  unfold wf_ext, NewExecutor; simpl. split_and!; try done.
  - constructor.
  - intros c. split; [by intros ?%not_elem_of_nil|]. rewrite lookup_empty. by intros [? ?].
  - unfold DefaultOutboxBufferSize. lia.
Qed.

Section MoreBroker.
Variable encode : Message -> Error + list byte.
Variable decode : list byte -> Error + Message.

Lemma clientReader_iter_room now pick_stop cx ob :
  let r := clientReader_iter decode now pick_stop cx ob in
  r_outbox r = ob \/
  exists msg, chan_full ob = false /\ r_outbox r = push msg ob.
Proof.
  unfold clientReader_iter.
  destruct (ReadMessage _ _ _ _) as [c [err|msg]].
  { destruct (post_error _ _); auto. }
  unfold msgType. destruct (msgEvent msg) as [ev|]; simpl; [|auto].
  destruct (String.eqb _ _); [auto|].
  destruct (stopped cx && _); [auto|].
  unfold try_send.
  destruct (ch_closed ob); [auto|].
  destruct (chan_full ob); [auto|].
  right. exists msg. eauto.
Qed.

Lemma step_wf_ext a s :
  wf s -> wf_ext s -> wf_ext (step encode decode a s).
Proof.
  intros Hwf (Hnd & Hsub & Hdom & Hin & Hocap & Holen).
  pose proof Hwf as (Hndc & Hreg & Htk & Hoc & Hob).
  destruct a as [[e|cmd| |werr]|now pick_stop cx|c now pick tick cx].
  - (* chat event *)
    destruct (step_chat e s Hwf) as (_ & _ & _ & Hcls & Hh & _ & Hout & _).
    destruct (chat_round_frame e s) as (_ & _ & _ & Hrep & _).
    simpl step. unfold wf_ext. rewrite Hcls, Hrep, Hout.
    split_and!; try done.
    + etrans; [apply sublist_filter|done].
    + intros c. rewrite Hdom, Hh.
      destruct (decide (c ∈ clients s)); [|done].
      by rewrite fmap_is_Some.
    + intros c ci'. rewrite Hh. intros Hci'.
      destruct (decide (c ∈ clients s)) as [Hc|Hc].
      * destruct (heap s !! c) as [ci|] eqn:Hci; [|done].
        simpl in Hci'. injection Hci' as <-.
        destruct (Hin c ci Hci) as (Hcap & Hlen & Hopen).
        unfold broadcast_to, inbox_full.
        destruct (chan_full (inbox ci)) eqn:Hf; simpl.
        -- split_and!; [done|done|]. rewrite list_elem_of_filter.
           unfold inbox_full. rewrite Hci, Hf. split; [by intros [? _]|done].
        -- unfold chan_full in Hf. apply Nat.leb_gt in Hf.
           rewrite length_app. simpl. split_and!; [done|lia|].
           rewrite list_elem_of_filter. unfold inbox_full, chan_full. rewrite Hci.
           split; [done|]. intros _. split; [|done]. by apply Nat.leb_gt.
      * destruct (Hin c ci' Hci') as (Hcap & Hlen & Hopen).
        split_and!; [done|done|]. rewrite list_elem_of_filter.
        split; [intros [_ ?]; done|]. intros Hcl. by apply Hopen in Hcl.
  - (* command *)
    done.
  - (* registration *)
    simpl. pose proof (new_loc_fresh (heap s)) as Hfresh.
    set (p := new_loc (heap s)) in *.
    assert (Hp : p ∉ replies s).
    { rewrite Hdom, Hfresh. by intros [? ?]. }
    unfold wf_ext; simpl. split_and!; try done.
    + apply NoDup_app. split_and!; [done| |apply NoDup_singleton].
      intros c Hc ->%list_elem_of_singleton. done.
    + by apply sublist_app.
    + intros c. rewrite elem_of_app, list_elem_of_singleton, Hdom.
      destruct (decide (p = c)) as [<-|Hne].
      * rewrite lookup_insert_eq. split; [eauto|auto].
      * rewrite lookup_insert_ne by done. split; [intros [?|Heq]; [done|by destruct Hne]|auto].
    + intros c ci. destruct (decide (p = c)) as [<-|Hne].
      * rewrite lookup_insert_eq. intros [= <-]. simpl. split_and!; [done|lia|].
        rewrite elem_of_app, list_elem_of_singleton. split; auto.
      * rewrite lookup_insert_ne by done. intros Hci.
        destruct (Hin c ci Hci) as (? & ? & Hopen). split_and!; [done|done|].
        rewrite elem_of_app, list_elem_of_singleton, Hopen.
        split; [intros [?|Heq]; [done|by destruct Hne]|auto].
  - (* client-originated message *)
    simpl. unfold processEvents, processEvents_iter, try_recv. rewrite Hoc.
    destruct (ch_buf (outbox s)) as [|m rest] eqn:Hbuf;
      [simpl; unfold wf_ext; rewrite Hbuf; split_and!; done|].
    apply Forall_cons in Hob as [[ev Hm] _].
    unfold SendMessageToBot. simpl. rewrite Hm.
    simpl in Holen.
    destruct werr; unfold wf_ext; simpl; split_and!; try done; lia.
  - (* reader *)
    simpl. pose proof (clientReader_iter_room now pick_stop cx (outbox s)) as Hr.
    simpl in Hr. unfold wf_ext; simpl. split_and!; try done.
    + by destruct Hr as [->|(m & _ & ->)].
    + destruct Hr as [->|(m & Hf & ->)]; [done|]. simpl.
      unfold chan_full in Hf. apply Nat.leb_gt in Hf.
      rewrite length_app. simpl. lia.
  - (* writer *)
    simpl. destruct (heap s !! c) as [ci|] eqn:Hci; [|done].
    pose proof (clientWriter_iter_inbox encode now pick tick cx (inbox ci)) as Hw.
    simpl in Hw.
    set (r := clientWriter_iter encode now pick tick cx (inbox ci)) in *.
    destruct (Hin c ci Hci) as (Hcap & Hlen & Hopen).
    assert (Hr : ch_cap (w_inbox r) = ch_cap (inbox ci) /\
                 ch_closed (w_inbox r) = ch_closed (inbox ci) /\
                 (length (ch_buf (w_inbox r)) <= length (ch_buf (inbox ci)))%nat).
    { destruct Hw as [[-> _]|(m & _ & Hb & ? & ?)]; [done|].
      rewrite Hb. simpl. split_and!; [done|done|lia]. }
    destruct Hr as (Hrcap & Hrcl & Hrlen).
    unfold wf_ext; simpl. split_and!; try done.
    + intros c'. rewrite Hdom. destruct (decide (c = c')) as [<-|Hne].
      * rewrite lookup_insert_eq, Hci. split; eauto.
      * by rewrite lookup_insert_ne.
    + intros c' ci'. destruct (decide (c = c')) as [<-|Hne].
      * rewrite lookup_insert_eq. intros [= <-]. simpl.
        rewrite Hrcap, Hrcl. split_and!; [done|lia|done].
      * rewrite lookup_insert_ne by done. apply Hin.
Qed.

Lemma reachable_wf_ext acts : wf_ext (run encode decode acts NewExecutor).
Proof.
  induction acts as [|a acts IH] using rev_ind; [apply wf_ext_NewExecutor|].
  rewrite run_snoc. apply step_wf_ext; [apply reachable_wf|done].
Qed.


Lemma chat_events_app acts1 acts2 :
  chat_events (acts1 ++ acts2) = chat_events acts1 ++ chat_events acts2.
Proof.
  induction acts1 as [|a acts1 IH]; [done|]. simpl.
  destruct (chat_event a); simpl; by rewrite IH.
Qed.

Lemma int_wrap_succ z : int_wrap (int_wrap z + 1) = int_wrap (z + 1).
Proof.
  unfold int_wrap. f_equal.
  replace ((z + 2 ^ 63) mod 2 ^ 64 - 2 ^ 63 + 1 + 2 ^ 63)
    with ((z + 2 ^ 63) mod 2 ^ 64 + 1) by lia.
  rewrite Zplus_mod_idemp_l. f_equal. lia.
Qed.

Lemma run_counter (acts : list action) :
  counter (run encode decode acts NewExecutor)
    = int_wrap (Z.of_nat (length (chat_events acts))).
Proof.
  induction acts as [|a acts IH] using rev_ind; [done|].
  rewrite run_snoc, chat_events_app, length_app.
  pose proof (reachable_wf encode decode acts) as Hwf.
  simpl. destruct (chat_event a) as [e|] eqn:Ha.
  - apply chat_event_inv in Ha. subst a. simpl.
    destruct (step_chat e _ Hwf) as (_ & _ & -> & _).
    rewrite IH, int_wrap_succ. f_equal. lia.
  - destruct (step_other encode decode a _ Hwf Ha) as [_ Hp].
    rewrite (pres_counter _ _ Hp), IH. simpl. f_equal. lia.
Qed.

Lemma all_messages_snoc_chat acts e :
  all_messages (acts ++ [Loop (FromInbox e)])
    = all_messages acts ++
        [mkMessage e (counter (run encode decode acts NewExecutor))].
Proof.
  unfold all_messages. rewrite chat_events_app. simpl.
  rewrite imap_app. simpl. rewrite Nat.add_0_r.
  by rewrite run_counter.
Qed.

Lemma all_messages_snoc_other acts a :
  chat_event a = None -> all_messages (acts ++ [a]) = all_messages acts.
Proof.
  intros Ha. unfold all_messages. rewrite chat_events_app. simpl.
  rewrite Ha. by rewrite app_nil_r.
Qed.

Lemma received_unallocated s c :
  wf s -> heap s !! c = None -> received s c = [].
Proof.
  intros (_ & _ & Htk & _) Hc. unfold received. by rewrite (Htk c Hc), Hc.
Qed.

(** X2. In any state the broker reaches, what was queued for a
    registration (taken by its writer or still in its inbox) is a
    contiguous run of the sequence of messages the event loop made of the
    chat events so far: nothing is skipped, repeated or reordered. For a
    registration still in the registry the run extends to the latest
    message. *)
Theorem received_contiguous (acts : list action) :
  let s := run encode decode acts NewExecutor in
  let msgs := all_messages acts in
  (forall c, c ∈ clients s ->
     exists i, (i <= length msgs)%nat /\ received s c = drop i msgs) /\
  (forall c, exists i j, (i + j <= length msgs)%nat /\
                         received s c = take j (drop i msgs)).
Proof.
  induction acts as [|a acts IH] using rev_ind.
  { simpl. split.
    - intros c Hc. by apply not_elem_of_nil in Hc.
    - intros c. exists 0%nat, 0%nat. done. }
  cbv zeta in *. destruct IH as [IHreg IHall].
  pose proof (reachable_wf encode decode acts) as Hwf.
  rewrite run_snoc.
  set (s := run encode decode acts NewExecutor) in *.
  destruct (chat_event a) as [e|] eqn:Ha.
  - apply chat_event_inv in Ha. subst a.
    rewrite all_messages_snoc_chat. fold s. simpl step.
    set (m := mkMessage e (counter s)).
    set (msgs := all_messages acts) in *.
    destruct (step_chat e s Hwf) as (_ & _ & _ & Hcls & _).
    assert (Hreg' : forall c, c ∈ clients (processEvents (FromInbox e) s) ->
              exists i, (i <= length msgs)%nat /\
                received (processEvents (FromInbox e) s) c = drop i msgs ++ [m]).
    { intros c Hc. rewrite Hcls in Hc. apply list_elem_of_filter in Hc as [Hnf Hc].
      destruct (IHreg c Hc) as (i & Hi & Hr). exists i. split; [done|].
      rewrite step_chat_received by done. rewrite decide_True by done.
      by rewrite Hr. }
    split.
    + intros c Hc. destruct (Hreg' c Hc) as (i & Hi & Hr). exists i.
      rewrite length_app. simpl. split; [lia|].
      rewrite Hr. by rewrite drop_app_le.
    + intros c.
      destruct (decide (c ∈ clients (processEvents (FromInbox e) s))) as [Hc|Hc].
      * destruct (Hreg' c Hc) as (i & Hi & Hr). exists i, (S (length msgs) - i)%nat.
        rewrite length_app. simpl. split; [lia|].
        rewrite Hr, drop_app_le by done. rewrite take_ge; [done|].
        rewrite length_app, length_drop. simpl. lia.
      * destruct (IHall c) as (i & j & Hij & Hr). exists i, j.
        rewrite length_app. simpl. split; [lia|].
        assert (Hsame : received (processEvents (FromInbox e) s) c = received s c).
        { rewrite step_chat_received by done.
          destruct (decide (c ∈ clients s /\ inbox_full (heap s) c = false)) as [[? ?]|];
            [|done].
          destruct Hc. rewrite Hcls. by apply list_elem_of_filter. }
        rewrite Hsame, Hr.
        destruct (decide (i <= length msgs)%nat) as [Hle|Hgt]; [|lia].
        rewrite drop_app_le by done. rewrite take_app_le; [done|].
        rewrite length_drop. lia.
  - rewrite all_messages_snoc_other by done.
    set (msgs := all_messages acts) in *.
    destruct (step_other encode decode a s Hwf Ha) as [_ Hp].
    split.
    + intros c Hc. rewrite (pres_received _ _ Hp).
      destruct (decide (c ∈ clients s)) as [Hin|Hnin]; [by apply IHreg|].
      pose proof (pres_new _ _ Hp c Hc Hnin) as Hnone.
      exists (length msgs). split; [done|].
      rewrite (received_unallocated s c Hwf Hnone). by rewrite drop_all.
    + intros c. rewrite (pres_received _ _ Hp). apply IHall.
Qed.


(** X1. In any state the broker reaches, the counter is the number of chat
    events the event loop has taken, wrapped to the 64-bit [int]; so the
    i-th chat event (from 0) is broadcast with ID [int_wrap i]. *)
Theorem counter_counts_events (acts : list action) :
  counter (run encode decode acts NewExecutor)
    = int_wrap (Z.of_nat (length (chat_events acts))).
Proof. apply run_counter. Qed.

(** X3. In any state the broker reaches, every client inbox has capacity
    [DefaultClientBufferSize] and holds at most that many messages, and the
    outbox has capacity [DefaultOutboxBufferSize] and holds at most that
    many. *)
Theorem queues_bounded (acts : list action) :
  let s := run encode decode acts NewExecutor in
  (forall c ci, heap s !! c = Some ci ->
     ch_cap (inbox ci) = DefaultClientBufferSize /\
     (length (ch_buf (inbox ci)) <= DefaultClientBufferSize)%nat) /\
  ch_cap (outbox s) = DefaultOutboxBufferSize /\
  (length (ch_buf (outbox s)) <= DefaultOutboxBufferSize)%nat.
Proof.
  intros s. destruct (reachable_wf_ext acts) as (_ & _ & _ & Hin & Hc & Hl).
  split_and!; [|done|done].
  intros c ci Hci. by destruct (Hin c ci Hci) as (? & ? & _).
Qed.

(** X4. In any state the broker reaches, no registration was handed out
    twice, the store holds exactly the registrations handed out, the
    registry lists some of them in the order they were made, and a
    registration is in the registry exactly when its inbox is open. *)
Theorem registry_lists_open_registrations (acts : list action) :
  let s := run encode decode acts NewExecutor in
  NoDup (replies s) /\
  clients s `sublist_of` replies s /\
  (forall c, c ∈ replies s <-> is_Some (heap s !! c)) /\
  (forall c ci, heap s !! c = Some ci ->
     (c ∈ clients s <-> ch_closed (inbox ci) = false)).
Proof.
  intros s. destruct (reachable_wf_ext acts) as (Hnd & Hsub & Hdom & Hin & _).
  split_and!; [done|done|done|].
  intros c ci Hci. by destruct (Hin c ci Hci) as (_ & _ & ?).
Qed.

End MoreBroker.


(* ===================================================================== *)
(** ** More on framing *)
(* ===================================================================== *)

Section MoreFraming.
Variable encode : Message -> Error + list byte.
Variable decode : list byte -> Error + Message.

Lemma conn_Write_ok_iff p c c' :
  conn_Write p c = (c', None) <->
  cclosed c = false /\
  (forall k, wroom c = Some k -> (length p <= k)%nat) /\
  c' = mkConn (rd c) (wr c ++ p) ((fun k => (k - length p)%nat) <$> wroom c)
              (rdeadline c) (wdeadline c) false.
Proof.
  unfold conn_Write. destruct (cclosed c) eqn:Hc.
  { split; [done|]. by intros [? _]. }
  destruct (wroom c) as [k|] eqn:Hk; simpl.
  - destruct (length p <=? k)%nat eqn:Hl.
    + apply Nat.leb_le in Hl. split.
      * intros [= <-]. split_and!; [done| |done]. by intros k' [= <-].
      * by intros (_ & _ & ->).
    + apply Nat.leb_gt in Hl. split; [done|].
      intros (_ & Hroom & _). specialize (Hroom k eq_refl). lia.
  - split.
    + intros [= <-]. split_and!; done.
    + by intros (_ & _ & ->).
Qed.

Lemma io_Copy_open buf c :
  cclosed c = false -> io_Copy buf c = conn_Write buf c.
Proof.
  intros Hopen. destruct buf as [|b buf']; [|done].
  unfold io_Copy, conn_Write. rewrite Hopen.
  destruct c as [r w room rdl wdl cl]. simpl in *. subst cl.
  destruct room as [k|]; simpl; rewrite app_nil_r; [|done].
  by rewrite Nat.sub_0_r.
Qed.

Lemma WriteMessage_ok_iff now timeout c msg c' :
  WriteMessage encode now timeout c msg = (c', None) <->
  exists buf,
    encode msg = inr buf /\
    Z.of_nat (length buf) <= DefaultMessageLengthCap /\
    cclosed c = false /\
    (forall k, wroom c = Some k -> (2 + length buf <= k)%nat) /\
    c' = after_frame now timeout c buf.
Proof.
  unfold WriteMessage, after_frame, frame.
  destruct (encode msg) as [e|buf] eqn:He.
  { split; [done|]. by intros (buf & ? & _). }
  destruct (Z.of_nat (length buf) >? DefaultMessageLengthCap) eqn:Hlen.
  { split; [done|]. intros (buf' & [= <-] & ? & _). lia. }
  set (lb := BigEndian_PutUint16 _).
  assert (Hlb : length lb = 2%nat) by done.
  set (c1 := SetWriteDeadline _ c).
  destruct (conn_Write lb c1) as [c2 [e|]] eqn:H1.
  - split; [done|]. intros (buf' & [= <-] & _ & Hopen & Hroom & _).
    assert (H : exists c3, conn_Write lb c1 = (c3, None)).
    { eexists. apply conn_Write_ok_iff. split_and!; [done| |done].
      intros k Hk. rewrite Hlb. specialize (Hroom k Hk). lia. }
    destruct H as [c3 H]. congruence.
  - apply conn_Write_ok_iff in H1 as (Hopen & Hroom1 & ->).
    change (cclosed c1) with (cclosed c) in Hopen.
    change (wroom c1) with (wroom c) in *.
    rewrite io_Copy_open by done.
    assert (Heq :
      mkConn (rd c1) ((wr c1 ++ lb) ++ buf)
             ((fun k => (k - length buf)%nat) <$>
                ((fun k => (k - length lb)%nat) <$> wroom c))
             (rdeadline c1) (wdeadline c1) false
      = mkConn (rd c) (wr c ++ lb ++ buf)
               ((fun k => (k - (2 + length buf))%nat) <$> wroom c)
               (rdeadline c) (Some (now + timeout)) false).
    { rewrite <- app_assoc. simpl. f_equal.
      destruct (wroom c); simpl; [f_equal; lia|done]. }
    rewrite conn_Write_ok_iff. cbn [rd wr wroom rdeadline wdeadline cclosed].
    split.
    + intros (_ & Hroom2 & ->). exists buf.
      split_and!; [done|lia|done| |exact Heq].
      intros k Hk. specialize (Hroom1 k Hk). rewrite Hlb in Hroom1.
      rewrite Hk in Hroom2. simpl in Hroom2. specialize (Hroom2 _ eq_refl). lia.
    + intros (buf0 & [= <-] & _ & _ & Hroom & ->). split_and!; [done| |symmetry; exact Heq].
      intros k Hk. destruct (wroom c) as [k0|] eqn:Hk0; [|done].
      simpl in Hk. injection Hk as <-. specialize (Hroom k0 eq_refl).
      simpl. lia.
Qed.

(** X6. [WriteMessage] returns without error exactly when the message
    encodes to at most 4096 bytes, the connection is open and the
    transport accepts the whole frame; the connection then has the frame
    appended to what was written and its write deadline set to the present
    time plus the timeout, and is otherwise unchanged. *)
Theorem WriteMessage_succeeds_iff now timeout c msg c' :
  WriteMessage encode now timeout c msg = (c', None) <->
  exists buf,
    encode msg = inr buf /\
    Z.of_nat (length buf) <= DefaultMessageLengthCap /\
    cclosed c = false /\
    (forall k, wroom c = Some k -> (2 + length buf <= k)%nat) /\
    c' = after_frame now timeout c buf.
Proof. apply WriteMessage_ok_iff. Qed.


(** X8. When a single byte is all that arrives, the one [conn.Read] of the
    prefix returns it and the second byte of the length stays zero: the
    declared length is 256 times that byte. The result is "message is too
    long" above the cap, a read error for a length from 256 to 4096, and
    the decoding of an empty body when the byte is zero. *)
Theorem ReadMessage_lone_byte now timeout c b0 :
  cclosed c = false ->
  rd c = [b0] ->
  ReadMessage decode now timeout c
    = (set_rd [] (SetReadDeadline (now + DefaultHeartbeatTimeout) c),
       if 256 * byte_to_Z b0 >? DefaultMessageLengthCap then inl ErrTooLong
       else if byte_to_Z b0 =? 0 then
              match decode [] with inl e => inl e | inr m => inr m end
            else inl ErrRead).
Proof.
  intros Hopen Hrd.
  unfold ReadMessage, conn_Read. simpl. rewrite Hopen, Hrd. simpl.
  change (byte_to_Z "000") with 0. rewrite Z.lor_0_l, Z.shiftl_mul_pow2 by lia.
  change (2 ^ 8) with 256. rewrite (Z.mul_comm _ 256).
  destruct (256 * byte_to_Z b0 >? DefaultMessageLengthCap); [done|].
  pose proof (byte_to_Z_range b0) as Hr.
  unfold io_CopyN.
  destruct (byte_to_Z b0 =? 0) eqn:Hz.
  - apply Z.eqb_eq in Hz. rewrite Hz. simpl. by destruct (decode []).
  - apply Z.eqb_neq in Hz.
    destruct (Z.to_nat (256 * byte_to_Z b0)) as [|k] eqn:Hn; [lia|].
    simpl. by rewrite Hopen.
Qed.

End MoreFraming.

(* ===================================================================== *)
(** ** The loops of the tasks, and teardown *)
(* ===================================================================== *)

Section LoopFacts.
Variable encode : Message -> Error + list byte.
Variable decode : list byte -> Error + Message.

(** X9. A writer whose inbox was closed by the broker with messages still
    queued, on an open connection without transport failure, and taking
    the inbox case each time, writes every queued message as a whole frame,
    in queue order, then sees the inbox closed: it closes the stop signal
    and the socket and returns, with no error posted and nothing logged. *)
Theorem writer_drains_closed_inbox (ms : list Message) :
  forall (bufs : list (list byte)) (sched : list (Z * writer_case * bool))
         (cx : ConnCtx) (cap : nat),
  Forall2 (fun m b => encode m = inr b /\
                      Z.of_nat (length b) <= DefaultMessageLengthCap) ms bufs ->
  length sched = S (length ms) ->
  Forall (fun e => e.1.2 = WInbox) sched ->
  cclosed (conn cx) = false ->
  wroom (conn cx) = None ->
  stopped cx = false ->
  let k := clientWriter encode sched cx (mkChan cap ms true) in
  wl_status k = Return /\
  wl_taken k = ms /\
  ch_buf (wl_inbox k) = [] /\
  wr (conn (wl_ctx k)) = wr (conn cx) ++ concat (frame <$> bufs) /\
  cclosed (conn (wl_ctx k)) = true /\
  stopped (wl_ctx k) = true /\
  errors (wl_ctx k) = errors cx /\
  wl_logged k = [].
Proof.
  induction ms as [|m ms IH]; intros bufs sched cx cap Henc Hlen Hpick Hopen Hroom Hstop.
  - apply Forall2_nil_inv_l in Henc. subst bufs.
    destruct sched as [|[[now pick] tick] [|? ?]]; try done.
    apply Forall_inv in Hpick. simpl in Hpick. subst pick.
    simpl. rewrite Hstop. simpl. split_and!; try done. by rewrite app_nil_r.
  - apply Forall2_cons_inv_l in Henc as (b & bufs' & [He Hb] & Henc & ->).
    destruct sched as [|[[now pick] tick] sched]; [done|].
    apply Forall_cons in Hpick as [Hp Hpick]. simpl in Hp. subst pick.
    simpl in Hlen. injection Hlen as Hlen.
    assert (HW : WriteMessage encode now DefaultHeartbeatTimeout (conn cx) m
                 = (after_frame now DefaultHeartbeatTimeout (conn cx) b, None)).
    { apply WriteMessage_ok_iff. exists b. split_and!; try done.
      intros k0. by rewrite Hroom. }
    cbn [clientWriter]. unfold clientWriter_iter, try_recv. cbn [ch_buf ch_cap ch_closed].
    rewrite HW. cbn [w_status w_ctx w_inbox w_got w_logged option_list].
    set (cx' := with_conn _ cx).
    destruct (IH bufs' sched cx' cap Henc Hlen Hpick) as
      (H1 & H2 & H3 & H4 & H5 & H6 & H7 & H8); try done.
    { simpl. by rewrite Hroom. }
    cbn [wl_status wl_taken wl_inbox wl_ctx wl_logged].
    split_and!; try done.
    all: first [ simpl; by rewrite H2
               | rewrite H4; simpl; by rewrite <- app_assoc
               | by rewrite H8 ].
Qed.



(** X11. Whenever an iteration of the reader or of the writer makes the
    task return, the socket is closed (the deferred [conn.Close()]); and
    an iteration after which the loop goes on has posted no error, has not
    touched the stop signal and has logged nothing. *)
Theorem tasks_return_with_socket_closed now cx :
  (forall pick_stop ob,
     let r := clientReader_iter decode now pick_stop cx ob in
     (r_status r = Return -> cclosed (conn (r_ctx r)) = true) /\
     (r_status r = Continue ->
        errors (r_ctx r) = errors cx /\ stopped (r_ctx r) = stopped cx /\
        r_logged r = [])) /\
  (forall pick tick ib,
     let r := clientWriter_iter encode now pick tick cx ib in
     (w_status r = Return -> cclosed (conn (w_ctx r)) = true) /\
     (w_status r = Continue ->
        errors (w_ctx r) = errors cx /\ stopped (w_ctx r) = stopped cx /\
        w_logged r = [])).
Proof.
  split.
  - intros pick_stop ob. unfold clientReader_iter.
    destruct (ReadMessage _ _ _ _) as [c [err|msg]].
    { by destruct (post_error _ _). }
    destruct (msgType msg) as [ty|]; [|done].
    destruct (String.eqb _ _); [done|].
    destruct (stopped cx && _); [done|].
    by destruct (try_send ob msg).
  - intros pick tick ib. unfold clientWriter_iter.
    destruct pick.
    + destruct (try_recv ib); [|by destruct (stopped cx)|done].
      destruct (WriteMessage _ _ _ _ _) as [c' [err|]]; [|done].
      by destruct (post_error _ _).
    + destruct tick; [|done].
      destruct (WriteMessage _ _ _ _ _) as [c' [err|]]; [|done].
      by destruct (post_error _ _).
    + by destruct (stopped cx).
Qed.

End LoopFacts.

Section Teardown.
Variable encode : Message -> Error + list byte.
Variable decode : list byte -> Error + Message.

Lemma WriteMessage_closed now timeout c msg :
  cclosed c = true ->
  exists err, WriteMessage encode now timeout c msg = (SetWriteDeadline (now + timeout) c, Some err)
              \/ WriteMessage encode now timeout c msg = (c, Some err).
Proof.
  intros Hc. unfold WriteMessage.
  destruct (encode msg) as [e|buf]; [by eauto|].
  destruct (_ >? _); [by eauto|].
  unfold conn_Write. simpl. rewrite Hc. eauto.
Qed.

(** X12. Once the socket is closed (by the sibling task's deferred
    [conn.Close()]), no iteration of the reader or of the writer lets its
    loop go on: the reader forwards nothing and consumes nothing, the
    writer writes no byte. *)
Theorem closed_socket_stops_tasks now cx :
  cclosed (conn cx) = true ->
  (forall pick_stop ob,
     let r := clientReader_iter decode now pick_stop cx ob in
     r_status r <> Continue /\ r_outbox r = ob /\
     rd (conn (r_ctx r)) = rd (conn cx)) /\
  (forall pick tick ib,
     let r := clientWriter_iter encode now pick tick cx ib in
     w_status r <> Continue /\ wr (conn (w_ctx r)) = wr (conn cx)).
Proof.
  intros Hc. split.
  - intros pick_stop ob. unfold clientReader_iter, ReadMessage, conn_Read.
    simpl. rewrite Hc. by destruct (post_error _ _).
  - intros pick tick ib. unfold clientWriter_iter. destruct pick.
    + destruct (try_recv ib) as [m q| |]; [|by destruct (stopped cx)|done].
      destruct (WriteMessage_closed now DefaultHeartbeatTimeout (conn cx) m Hc)
        as (err & [-> | ->]); by destruct (post_error _ _).
    + destruct tick; [|done].
      destruct (WriteMessage_closed now DefaultHeartbeatTimeout (conn cx) ping Hc)
        as (err & [-> | ->]); by destruct (post_error _ _).
    + by destruct (stopped cx).
Qed.

(** X13. In any state the broker reaches with a message at the head of the
    outbox, a round of the event loop whose chat write fails ends in the
    state of the round whose write succeeds plus one log line: the message
    has left the outbox and is not tried again. *)
Theorem failed_chat_write_drops_message (pre : list action) (err : string)
    (msg : Message) (rest : list Message) :
  let s := run encode decode pre NewExecutor in
  ch_buf (outbox s) = msg :: rest ->
  step encode decode (Loop (FromOutbox (Some err))) s
    = Printf [("failed to write message to xmpp stream: " +:+ err)%string]
             (step encode decode (Loop (FromOutbox None)) s) /\
  ch_buf (outbox (step encode decode (Loop (FromOutbox (Some err))) s)) = rest.
Proof.
  intros s Hbuf.
  pose proof (reachable_wf encode decode pre) as (_ & _ & _ & Hoc & Hob).
  fold s in Hoc, Hob. rewrite Hbuf in Hob.
  apply Forall_cons in Hob as [[ev Hev] _].
  simpl. unfold processEvents, processEvents_iter, try_recv. rewrite Hbuf.
  unfold SendMessageToBot. simpl. rewrite Hev. done.
Qed.

End Teardown.

(* ===================================================================== *)
(** ** The statistics counter *)
(* ===================================================================== *)

Lemma sum_counts_insert_fresh (d : gmap string Z) k v :
  d !! k = None -> Stat.sum_counts (<[k := v]> d) = v + Stat.sum_counts d.
Proof.
  intros Hk. unfold Stat.sum_counts.
  rewrite map_fold_insert_L; [done| |done]. intros. lia.
Qed.

Lemma sum_counts_insert_present (d : gmap string Z) k v0 v :
  d !! k = Some v0 ->
  Stat.sum_counts (<[k := v]> d) = v - v0 + Stat.sum_counts d.
Proof.
  intros Hk.
  rewrite <- (insert_delete_eq d k v).
  rewrite <- (insert_delete_id d k v0 Hk) at 2.
  rewrite !sum_counts_insert_fresh by apply lookup_delete_eq. lia.
Qed.

Lemma int_wrap_mod z : int_wrap z mod 2 ^ 64 = z mod 2 ^ 64.
Proof.
  unfold int_wrap.
  rewrite Zminus_mod, Zmod_mod, <- Zminus_mod. f_equal. lia.
Qed.

Lemma mod_diff a b a' b' :
  a' mod 2 ^ 64 = a mod 2 ^ 64 -> b' mod 2 ^ 64 = b mod 2 ^ 64 ->
  (a' - b') mod 2 ^ 64 = (a - b) mod 2 ^ 64.
Proof. intros Ha Hb. rewrite Zminus_mod, Ha, Hb, <- Zminus_mod. done. Qed.

Section StatFacts.
Variable DB : Type.
Variable DbError : Type.
Variable db_Get : DB -> DbError + Stat.CStatDoc.
Variable db_Put : Stat.CStatDoc -> string -> DB -> DB * (DbError + string).
Variable db_Rev : DB -> DbError + string.
Variable NotFound : DbError -> bool.
Variable show : DbError -> string.

Local Abbreviation GetStat := (Stat.GetStat DB DbError db_Get db_Put NotFound).
Local Abbreviation SetStat := (Stat.SetStat DB DbError db_Put db_Rev show).
Local Abbreviation IncStat := (Stat.IncStat DB DbError db_Get db_Put db_Rev NotFound show).

Lemma GetStat_map fuel : forall db db' s,
  GetStat fuel db = Some (db', s, None) -> is_Some (Stat.Data s).
Proof.
  induction fuel as [|fuel IH]; intros db db' s; simpl; [done|].
  destruct (db_Get db) as [err|doc].
  - destruct (NotFound err); [|done].
    destruct (db_Put _ _ db) as [db1 [err'|rev]]; [done|]. apply IH.
  - destruct (Stat.Data doc) eqn:Hd; intros [= <- <-]; simpl; eauto.
Qed.

(** X14. Whatever the store does, [IncStat] never panics on the document
    it got: a [GetStat] that returns without error returns a document
    whose map is not nil, so the assignment into it is safe. A call either
    returns, or is still in the recursion of [GetStat] when the fuel ends. *)
Theorem IncStat_never_panics user fuel db :
  IncStat user fuel db = None \/
  exists db' logged, IncStat user fuel db = Some (Stat.Finished db' logged).
Proof.
  unfold Stat.IncStat.
  destruct (GetStat fuel db) as [[[db' s] [err|]]|] eqn:HG; [eauto|..|by left].
  destruct (GetStat_map _ _ _ _ HG) as [d Hd].
  unfold Stat.bump. rewrite Hd.
  destruct (SetStat _ db') as [db'' logged]. eauto.
Qed.

(** X15. When [GetStat] returns the document [s] without error, [IncStat]
    hands [SetStat] the document with [Total] incremented, the counter of
    [user] incremented (1 for a user not yet counted) and every other
    counter unchanged, both increments with 64-bit wrap-around; so the
    difference between [Total] and the sum of the counters is the same
    modulo 2^64 before and after. *)
Theorem IncStat_counts user fuel db db' s d :
  GetStat fuel db = Some (db', s, None) ->
  Stat.Data s = Some d ->
  exists d',
    let s' := Stat.mkDoc (int_wrap (Stat.Total s + 1)) (Some d') in
    IncStat user fuel db
      = Some (Stat.Finished (SetStat s' db').1 (SetStat s' db').2) /\
    d' !! user = Some (match d !! user with
                       | Some n => int_wrap (n + 1)
                       | None => 1
                       end) /\
    (forall other, other <> user -> d' !! other = d !! other) /\
    (Stat.Total s' - Stat.sum_counts d') mod 2 ^ 64
      = (Stat.Total s - Stat.sum_counts d) mod 2 ^ 64.
Proof.
  intros HG Hd. unfold Stat.IncStat. rewrite HG. unfold Stat.bump. rewrite Hd.
  exists (match d !! user with
          | Some n => <[user := int_wrap (n + 1)]> d
          | None => <[user := 1]> d
          end).
  cbv zeta. split_and!.
  - by destruct (SetStat _ db').
  - destruct (d !! user); apply lookup_insert_eq.
  - intros other Hne. destruct (d !! user); by rewrite lookup_insert_ne.
  - simpl.
    replace (Stat.Total s - Stat.sum_counts d)
      with ((Stat.Total s + 1) - (Stat.sum_counts d + 1)) by lia.
    apply mod_diff; [apply int_wrap_mod|].
    destruct (d !! user) as [n|] eqn:Hu.
    + rewrite (sum_counts_insert_present d user n) by done.
      replace (int_wrap (n + 1) - n + Stat.sum_counts d)
        with (int_wrap (n + 1) - (n - Stat.sum_counts d)) by lia.
      replace (Stat.sum_counts d + 1) with ((n + 1) - (n - Stat.sum_counts d)) by lia.
      apply mod_diff; [apply int_wrap_mod|done].
    + rewrite sum_counts_insert_fresh by done. f_equal. lia.
Qed.

End StatFacts.

(* ===================================================================== *)
(** ** The further theorems at concrete inputs *)
(* ===================================================================== *)


Lemma ReadMessage_lone_byte_witness :
  rd (demo_conn [x01]) = [x01] /\
  snd (ReadMessage demo_decode 0 DefaultHeartbeatTimeout (demo_conn [x01]))
    = inl ErrRead.
Proof.
  split; [reflexivity|].
  exact (f_equal snd
           (ReadMessage_lone_byte demo_decode 0 DefaultHeartbeatTimeout
              (demo_conn [x01]) x01 eq_refl eq_refl)).
Defined.

Lemma writer_drains_closed_inbox_witness :
  let sched := [(0, WInbox, false); (1, WInbox, true); (2, WInbox, false)] in
  let k := clientWriter demo_encode sched (demo_ctx [])
                        (mkChan DefaultClientBufferSize [hi_msg; reply_msg] true) in
  Forall2 (fun m b => demo_encode m = inr b /\
                      Z.of_nat (length b) <= DefaultMessageLengthCap)
          [hi_msg; reply_msg] [demo_buf hi_msg; demo_buf reply_msg] /\
  wl_status k = Return /\
  wr (conn (wl_ctx k)) = frame (demo_buf hi_msg) ++ frame (demo_buf reply_msg).
Proof.
  assert (H : Forall2 (fun m b => demo_encode m = inr b /\
                      Z.of_nat (length b) <= DefaultMessageLengthCap)
          [hi_msg; reply_msg] [demo_buf hi_msg; demo_buf reply_msg]).
  { repeat constructor; (vm_compute; first [reflexivity | discriminate]). }
  split; [exact H|].
  destruct (writer_drains_closed_inbox demo_encode [hi_msg; reply_msg]
              [demo_buf hi_msg; demo_buf reply_msg]
              [(0, WInbox, false); (1, WInbox, true); (2, WInbox, false)]
              (demo_ctx []) DefaultClientBufferSize H eq_refl)
    as (Hs & _ & _ & Hw & _); [repeat constructor|reflexivity|reflexivity|reflexivity|].
  split; [exact Hs|]. rewrite Hw. simpl. by rewrite app_nil_r.
Defined.


Lemma closed_socket_stops_tasks_witness :
  let cx := mkConnCtx (conn_Close (demo_conn reply_frame)) (make_chan 2) true in
  cclosed (conn cx) = true /\
  r_outbox (clientReader_iter demo_decode 0 false cx (outbox NewExecutor))
    = outbox NewExecutor /\
  wr (conn (w_ctx (clientWriter_iter demo_encode 0 WTick true cx
                                     (make_chan DefaultClientBufferSize)))) = [].
Proof.
  split; [reflexivity|].
  destruct (closed_socket_stops_tasks demo_encode demo_decode 0
              (mkConnCtx (conn_Close (demo_conn reply_frame)) (make_chan 2) true)
              eq_refl) as [Hr Hw].
  split.
  - exact (proj1 (proj2 (Hr false (outbox NewExecutor)))).
  - exact (proj2 (Hw WTick true (make_chan DefaultClientBufferSize))).
Defined.

Lemma failed_chat_write_drops_message_witness :
  ch_buf (outbox (run demo_encode demo_decode
                      [ReaderIter 0 false (demo_ctx reply_frame)] NewExecutor))
    = [reply_msg] /\
  ch_buf (outbox (step demo_encode demo_decode (Loop (FromOutbox (Some "timeout"%string)))
                       (run demo_encode demo_decode
                            [ReaderIter 0 false (demo_ctx reply_frame)] NewExecutor)))
    = [].
Proof.
  assert (H : ch_buf (outbox (run demo_encode demo_decode
                      [ReaderIter 0 false (demo_ctx reply_frame)] NewExecutor))
              = [reply_msg]) by (vm_compute; reflexivity).
  split; [exact H|].
  exact (proj2 (failed_chat_write_drops_message demo_encode demo_decode
                  [ReaderIter 0 false (demo_ctx reply_frame)] "timeout"
                  reply_msg [] H)).
Defined.

Lemma IncStat_counts_witness :
  Stat.GetStat _ _ demo_Get demo_Put (fun e => e) 2 None
    = Some (Some (Stat.mkDoc 0 None), Stat.mkDoc 0 (Some ∅), None) /\
  exists d' : gmap string Z,
    d' !! "alice"%string = Some 1 /\
    Stat.IncStat _ _ demo_Get demo_Put demo_Rev (fun e => e) (fun _ => "error"%string)
                 "alice" 2 None
      = Some (Stat.Finished (Some (Stat.mkDoc 1 (Some d'))) []).
Proof.
  assert (H : Stat.GetStat _ _ demo_Get demo_Put (fun e => e) 2 None
    = Some (Some (Stat.mkDoc 0 None), Stat.mkDoc 0 (Some ∅), None)) by reflexivity.
  split; [exact H|].
  destruct (IncStat_counts _ _ demo_Get demo_Put demo_Rev (fun e => e)
              (fun _ => "error"%string) "alice" 2 None _ _ ∅ H eq_refl)
    as (d' & Hinc & Hl & _).
  exists d'. split; [exact Hl|exact Hinc].
Defined.
